(** * eslint-plugin-tailwindcss: the rule [no-defined-arbitrary-value]

    A shallow embedding of
    - [lib/util/traverseObject.js] and the index construction of the rule's
      [create] (module [Theme]),
    - [lib/util/splitWithIndex.js] (module [Split]),
    - [parseForArbitraryValues] of
      [lib/rules/no-defined-arbitrary-value.js] (module [Rule]),
    followed by the collaborators the rule calls ([Host]), the notions of
    the specification ([Spec]) and the properties of these functions.

    JavaScript strings are modelled by [string]: one [ascii] per code
    unit, so the development covers the strings all of whose code units are
    below 256.  Source offsets are [Z]; lengths and array positions are
    [nat].  A function that can throw returns a [result]. *)

From Stdlib Require Import String Ascii List ZArith Lia Bool Arith PeanoNat.
From Stdlib Require Import DecimalString Sorted.
Import ListNotations.

#[local] Set Warnings "-register-all".

Local Open Scope string_scope.
Local Open Scope list_scope.

(* ================================================================== *)
(** * JavaScript strings *)
(* ================================================================== *)

Module JsString.

(** The first [n] code units of [s]. *)
Fixpoint take (n : nat) (s : string) : string :=
  match n, s with
  | S n', String c s' => String c (take n' s')
  | _, _ => EmptyString
  end.

(** [s] without its first [n] code units. *)
Fixpoint drop (n : nat) (s : string) : string :=
  match n, s with
  | S n', String _ s' => drop n' s'
  | _, _ => s
  end.

(** [str.substring(a, b)]: both bounds are clamped to the length and
    swapped when [a > b]. *)
Definition substring (s : string) (a b : nat) : string :=
  let a' := Nat.min a (String.length s) in
  let b' := Nat.min b (String.length s) in
  let lo := Nat.min a' b' in
  let hi := Nat.max a' b' in
  take (hi - lo) (drop lo s).

(** [str.substring(a)]: up to the end of the string. *)
Definition substring_from (s : string) (a : nat) : string :=
  substring s a (String.length s).

(** [str.slice(0, -n)] for a non-negative [n]. *)
Definition slice_front (s : string) (n : nat) : string :=
  take (String.length s - n) s.

(** [str.startsWith(p)]. *)
Fixpoint startsWith (s p : string) : bool :=
  match p, s with
  | EmptyString, _ => true
  | String c p', String d s' => Ascii.eqb c d && startsWith s' p'
  | String _ _, EmptyString => false
  end.

(** [str.endsWith(p)]. *)
Definition endsWith (s p : string) : bool :=
  (String.length p <=? String.length s)%nat
  && String.eqb (drop (String.length s - String.length p) s) p.

(** [str.indexOf(p)], [None] standing for -1. *)
Fixpoint indexOf (s p : string) : option nat :=
  if startsWith s p then Some 0%nat
  else match s with
       | EmptyString => None
       | String _ s' => option_map S (indexOf s' p)
       end.

(** [arr.join(sep)] on an array of strings. *)
Fixpoint join (sep : string) (l : list string) : string :=
  match l with
  | [] => ""
  | [x] => x
  | x :: rest => x ++ sep ++ join sep rest
  end.

(** [GetSubstitution] of ECMA-262 for a replacement without captures,
    which is the case of a string pattern: [$$] is a dollar sign, [$&] the
    matched text, [$`] the text before the match and [$'] the text after
    it; every other code unit stands for itself. *)
Fixpoint getSubstitution (matched before after repl : string) : string :=
  match repl with
  | EmptyString => EmptyString
  | String c rest =>
      if Ascii.eqb c "$" then
        match rest with
        | String d rest' =>
            if Ascii.eqb d "$" then
              String "$" (getSubstitution matched before after rest')
            else if Ascii.eqb d "&" then
              matched ++ getSubstitution matched before after rest'
            else if Ascii.eqb d "`" then
              before ++ getSubstitution matched before after rest'
            else if Ascii.eqb d "'" then
              after ++ getSubstitution matched before after rest'
            else String c (getSubstitution matched before after rest)
        | EmptyString => String c EmptyString
        end
      else String c (getSubstitution matched before after rest)
  end.

(** [str.replace(pattern, repl)] with a string [pattern]: the first
    occurrence is replaced, a string without occurrence is unchanged. *)
Definition replace (s pattern repl : string) : string :=
  match indexOf s pattern with
  | None => s
  | Some i =>
      let before := take i s in
      let after := drop (i + String.length pattern) s in
      before ++ getSubstitution pattern before after repl ++ after
  end.

(** No dollar sign occurs in [s]. *)
Fixpoint dollar_free (s : string) : bool :=
  match s with
  | EmptyString => true
  | String c s' => negb (Ascii.eqb c "$") && dollar_free s'
  end.

End JsString.

(* ================================================================== *)
(** * JavaScript values and the theme index *)
(* ================================================================== *)

Module Theme.

(** The values a resolved configuration can hold.  Arrays, functions and
    objects are references: [id] is the identity of the object.  The
    properties of an object are listed in the order of [Object.keys].
    Numbers are restricted to integers. *)
Inductive jsval : Type :=
| JUndefined
| JNull
| JBool (b : bool)
| JNum (n : Z)
| JStr (s : string)
| JFun (id : nat)
| JArr (id : nat) (elems : list jsval)
| JObj (id : nat) (props : list (string * jsval)).

(** [SameValueZero], the comparison of [Map] keys: primitives by value,
    references by identity. *)
Definition same_value_zero (a b : jsval) : bool :=
  match a, b with
  | JUndefined, JUndefined => true
  | JNull, JNull => true
  | JBool x, JBool y => Bool.eqb x y
  | JNum x, JNum y => Z.eqb x y
  | JStr x, JStr y => String.eqb x y
  | JFun i, JFun j => Nat.eqb i j
  | JArr i _, JArr j _ => Nat.eqb i j
  | JObj i _, JObj j _ => Nat.eqb i j
  | _, _ => false
  end.

(** [typeof value === 'object' && value !== null && !Array.isArray(value)] *)
Definition is_plain_mapping (v : jsval) : bool :=
  match v with
  | JObj _ _ => true
  | _ => false
  end.

Inductive exn : Type :=
| TypeError.

Definition result (A : Type) : Type := (exn + A)%type.

Definition bind {A B : Type} (m : result A) (f : A -> result B) : result B :=
  match m with
  | inl e => inl e
  | inr a => f a
  end.

Notation "x <- m ;; k" := (bind m (fun x => k))
  (at level 61, m at next level, right associativity).

(** [obj[name]] for a property name that no prototype defines. *)
Definition getProp (obj : jsval) (name : string) : result jsval :=
  match obj with
  | JUndefined | JNull => inl TypeError
  | JObj _ props =>
      match find (fun kv => String.eqb (fst kv) name) props with
      | Some kv => inr (snd kv)
      | None => inr JUndefined
      end
  | _ => inr JUndefined
  end.

Definition index_key (i : nat) : string :=
  NilZero.string_of_uint (Nat.to_uint i).

Section Traverse.

(** The state the callback works on, and the callback. *)
Variable St : Type.
Variable callback : jsval -> list string -> St -> St.

(** [traverseObject(obj, callback, path)].  [Object.keys] throws on
    [undefined] and [null], lists the properties of an object, the
    indices of an array or a string, and nothing for the other values. *)
Fixpoint traverseObject (obj : jsval) (path : list string) (st : St)
    {struct obj} : result St :=
  match obj with
  | JUndefined | JNull => inl TypeError
  | JBool _ | JNum _ | JFun _ => inr st
  | JStr s =>
      (fix chars (s : string) (i : nat) (st : St) {struct s} : result St :=
         match s with
         | EmptyString => inr st
         | String c s' =>
             chars s' (S i)
               (callback (JStr (String c EmptyString))
                  (path ++ [index_key i]) st)
         end) s 0%nat st
  | JArr _ elems =>
      (fix items (l : list jsval) (i : nat) (st : St) {struct l}
         : result St :=
         match l with
         | [] => inr st
         | v :: l' =>
             st' <- (let newPath := path ++ [index_key i] in
                     if is_plain_mapping v then traverseObject v newPath st
                     else inr (callback v newPath st)) ;;
             items l' (S i) st'
         end) elems 0%nat st
  | JObj _ props =>
      (fix entries (l : list (string * jsval)) (st : St) {struct l}
         : result St :=
         match l with
         | [] => inr st
         | (key, v) :: l' =>
             st' <- (let newPath := path ++ [key] in
                     if is_plain_mapping v then traverseObject v newPath st
                     else inr (callback v newPath st)) ;;
             entries l' st'
         end) props st
  end.

End Traverse.

(** ** The [Map] of the rule *)

(** A [Map] from values to arrays of paths, in insertion order. *)
Definition jsmap : Type := list (jsval * list string).

Fixpoint map_get (m : jsmap) (k : jsval) : option (list string) :=
  match m with
  | [] => None
  | (k', v) :: m' => if same_value_zero k' k then Some v else map_get m' k
  end.

Definition map_has (m : jsmap) (k : jsval) : bool :=
  match map_get m k with
  | Some _ => true
  | None => false
  end.

(** [map.get(k).push(p)]: the array held at [k] grows in place. *)
Fixpoint map_push (m : jsmap) (k : jsval) (p : string) : jsmap :=
  match m with
  | [] => []
  | (k', v) :: m' =>
      if same_value_zero k' k then (k', v ++ [p]) :: m'
      else (k', v) :: map_push m' k p
  end.

(** [map.set(k, v)] *)
Fixpoint map_set (m : jsmap) (k : jsval) (v : list string) : jsmap :=
  match m with
  | [] => [(k, v)]
  | (k', v') :: m' =>
      if same_value_zero k' k then (k', v) :: m'
      else (k', v') :: map_set m' k v
  end.

(** The callback handed to [traverseObject] by [create]. *)
Definition collector (value : jsval) (path : list string) (m : jsmap)
    : jsmap :=
  if map_has m value then map_push m value (JsString.join "-" path)
  else map_set m value [JsString.join "-" path].

(** ** The heap of [Map] objects

    Every call of [create] allocates its own [Map]; the heap keeps the
    maps allocated so far, an address being a position in it. *)
Definition heap : Type := list jsmap.
Definition addr : Type := nat.

Definition new_map (h : heap) : addr * heap :=
  (List.length h, h ++ [[]]).

Definition load (h : heap) (a : addr) : option jsmap := nth_error h a.

Fixpoint store (h : heap) (a : addr) (m : jsmap) : heap :=
  match h, a with
  | [], _ => []
  | _ :: h', O => m :: h'
  | x :: h', S a' => x :: store h' a' m
  end.

(** The callback of [create], working on the map at address [a]. *)
Definition collector_at (a : addr) (value : jsval) (path : list string)
    (h : heap) : heap :=
  match load h a with
  | Some m => store h a (collector value path m)
  | None => h
  end.

(** Lines 70 to 81 of the rule: the index construction of [create], from
    the resolved configuration. *)
Definition create_index (mergedConfig : jsval) (h : heap)
    : result (addr * heap) :=
  theme <- getProp mergedConfig "theme" ;;
  colors <- getProp theme "colors" ;;
  let '(map, h1) := new_map h in
  h2 <- traverseObject heap (collector_at map) colors [] h1 ;;
  inr (map, h2).

End Theme.

(* ================================================================== *)
(** * [lib/util/splitWithIndex.js] *)
(* ================================================================== *)

Module Split.

(** A regular expression, through its matcher: [run str i] is
    [Some (len, captures)] when the pattern matches [str] at position [i]
    over [len] code units; [captures] has one entry for each of the
    [groups] capture groups of the expression, [None] for a group that took
    no part in the match.  A match never runs past the end of the string.
    [sticky] is the [y] flag. *)
Record regex : Type := {
  run : string -> nat -> option (nat * list (option string));
  sticky : bool;
  groups : nat;
  run_bound : forall str i len caps,
    run str i = Some (len, caps) -> i + len <= String.length str;
  run_groups : forall str i len caps,
    run str i = Some (len, caps) -> List.length caps = groups
}.

(** A match object: [match.index], [match[0]] and [match[1]], ... *)
Record regexMatch : Type := {
  m_index : nat;
  m_whole : string;
  m_groups : list (option string)
}.

(** [RegExpBuiltinExec] for a global regular expression whose [lastIndex]
    is [i], with [n] positions left after [i]: the first position from
    [i] on where the pattern matches, or [i] alone when sticky. *)
Fixpoint builtinExec (re : regex) (str : string) (n i : nat)
    : option regexMatch :=
  match run re str i with
  | Some (len, caps) =>
      Some {| m_index := i;
              m_whole := JsString.substring str i (i + len);
              m_groups := caps |}
  | None =>
      if sticky re then None
      else match n with
           | O => None
           | S n' => builtinExec re str n' (S i)
           end
  end.

(** Where [matchAll] resumes after the match [m]: [lastIndex] is the end
    of the match, advanced by one when the match is empty. *)
Definition resume (m : regexMatch) : nat :=
  m_index m + String.length (m_whole m)
  + (if (String.length (m_whole m) =? 0)%nat then 1 else 0).

(** The iteration of [str.matchAll(regex)]: [exec] fails once [lastIndex]
    is past the end of the string. *)
Fixpoint matchAll_from (re : regex) (str : string) (fuel lastIndex : nat)
    : list regexMatch :=
  match fuel with
  | O => []
  | S fuel' =>
      if (String.length str <? lastIndex)%nat then []
      else
        match builtinExec re str (String.length str - lastIndex) lastIndex with
        | None => []
        | Some m => m :: matchAll_from re str fuel' (resume m)
        end
  end.

(** [[...str.matchAll(regex)]]; [lastIndex] takes each value from 0 to the
    length at most once, which bounds the iteration. *)
Definition matchAll (re : regex) (str : string) : list regexMatch :=
  matchAll_from re str (String.length str + 2) 0.

(** An element of the result; [value] is [None] for the [undefined] of
    an unmatched capture group. *)
Record piece : Type := {
  value : option string;
  index : nat
}.

(** The body of the [for (match of matches)] loop, on the variables
    [result] and [lastIndex]. *)
Definition step (str : string) (acc : list piece * nat) (m : regexMatch)
    : list piece * nat :=
  let '(result, lastIndex) := acc in
  let result :=
    if negb (m_index m =? lastIndex)%nat then
      result ++ [{| value := Some (JsString.substring str lastIndex (m_index m));
                    index := lastIndex |}]
    else result in
  let result :=
    result ++ map (fun g => {| value := g; index := m_index m |}) (m_groups m) in
  (result, m_index m + String.length (m_whole m)).

(** [splitWithIndex(str, separator)]; the regular expression is rebuilt
    with the [g] flag, which [matchAll] needs. *)
Definition splitWithIndex (str : string) (separator : regex) : list piece :=
  let matches := matchAll separator str in
  match matches with
  | [] => [{| value := Some str; index := 0 |}]
  | m0 :: _ =>
      let result :=
        if (m_index m0 =? 0)%nat then [{| value := Some ""; index := 0 |}]
        else [] in
      let '(result, lastIndex) := fold_left (step str) matches (result, 0) in
      result ++ [{| value := Some (JsString.substring_from str lastIndex);
                    index := lastIndex |}]
  end.

End Split.

(* ================================================================== *)
(** * The result of [splitWithIndex], as its callers read it *)
(* ================================================================== *)

Module SplitSpec.

Import Split.

(** The separator has no capture group. *)
Definition no_capture_groups (re : regex) : Prop := groups re = 0.

(** The separator matches nowhere in [str]. *)
Definition no_match (re : regex) (str : string) : Prop :=
  forall i, i <= String.length str -> run re str i = None.

(** The separator matches the empty string at the start of [str]. *)
Definition empty_at_start (re : regex) (str : string) : Prop :=
  exists caps, run re str 0 = Some (0, caps).

(** What [value] and [index] say of each other: the value is a string,
    and stands in [str] at the index. *)
Definition located (str : string) (p : piece) : Prop :=
  exists v, value p = Some v
            /\ JsString.substring str (index p) (index p + String.length v) = v.

(** The indices of a result, in order. *)
Definition indices (l : list piece) : list nat := map index l.

(** The loop of [splitWithIndex] in closed form: the pieces pushed from
    [lastIndex] on, and the final [lastIndex]. *)
Fixpoint gaps (str : string) (lastIndex : nat) (ms : list regexMatch)
    : list piece :=
  match ms with
  | [] => []
  | m :: ms' =>
      (if negb (m_index m =? lastIndex)%nat then
         [{| value := Some (JsString.substring str lastIndex (m_index m));
             index := lastIndex |}]
       else [])
      ++ map (fun g => {| value := g; index := m_index m |}) (m_groups m)
      ++ gaps str (m_index m + String.length (m_whole m)) ms'
  end.

Fixpoint last_end (lastIndex : nat) (ms : list regexMatch) : nat :=
  match ms with
  | [] => lastIndex
  | m :: ms' => last_end (m_index m + String.length (m_whole m)) ms'
  end.

(** The matches [ms] are matches of [re] in [str], found one after the
    other from [lastIndex] on. *)
Fixpoint placed (re : regex) (str : string) (lastIndex : nat)
    (ms : list regexMatch) : Prop :=
  match ms with
  | [] => True
  | m :: ms' =>
      lastIndex <= m_index m
      /\ m_index m + String.length (m_whole m) <= String.length str
      /\ run re str (m_index m)
         = Some (String.length (m_whole m), m_groups m)
      /\ placed re str (resume m) ms'
  end.

End SplitSpec.

(* ================================================================== *)
(** * [lib/rules/no-defined-arbitrary-value.js] *)
(* ================================================================== *)

Module Rule.

Import Theme.

(** ** Syntax trees *)

(** The nodes handed to [parseForArbitraryValues] as [arg].  An array
    hole is [None].  [OtherNode] is a node of any type the [switch] has no
    case for. *)
Inductive expr : Type :=
| Identifier (name : string)
| TemplateLiteral (expressions : list expr) (quasis : list expr)
| ConditionalExpression (test consequent alternate : expr)
| LogicalExpression (lhs rhs : expr)
| ArrayExpression (elements : list (option expr))
| ObjectExpression (properties : list expr)
| Property (key value : expr)
| Literal (value : jsval) (range : Z * Z)
| TemplateElement (raw : string) (range : Z * Z)
| OtherNode (type : string) (children : list expr).


(** The root node of a parse, with what the rule reads from it:
    [node.type], [node.callee.name], [node.key.type], and the results of
    [astUtil.extractValueFromNode(node)] and
    [astUtil.extractRangeFromNode(node)]. *)
Record rootNode : Type := {
  node_type : string;
  callee_name : option string;
  key_type : option string;
  extracted_value : jsval;
  extracted_range : Z * Z
}.

(** The [data] of a report and its fix. *)
Record fix_info : Type := {
  fix_start : Z;
  fix_end : Z;
  fixed : string
}.

Record report : Type := {
  arbitraryValue : string;
  definedToken : list string;
  fixInfo : fix_info
}.

(** ** The regular expression of the rule

    An opening bracket, a capture group holding a greedy run of [.], and a
    closing bracket, with the [i] flag. *)

(** [.] matches every code unit but the line terminators. *)
Definition line_terminator (c : ascii) : bool :=
  Ascii.eqb c "010" || Ascii.eqb c "013".

(** No line terminator occurs in [s]. *)
Fixpoint one_line (s : string) : bool :=
  match s with
  | EmptyString => true
  | String c s' => negb (line_terminator c) && one_line s'
  end.

(** The position of the last ["]"] that [.*] can stop at in [s]: [.*]
    runs up to the first line terminator and gives back code units until
    a closing bracket follows. *)
Fixpoint last_close (s : string) : option nat :=
  match s with
  | EmptyString => None
  | String c s' =>
      if line_terminator c then None
      else match last_close s' with
           | Some k => Some (S k)
           | None => if Ascii.eqb c "]" then Some 0%nat else None
           end
  end.

(** [parsed.name.match(...)] with that expression: the match and its
    capture, at the first opening bracket a closing one can be reached
    from.  Brackets have no case variants, the [i] flag changes nothing. *)
Fixpoint arbitraryValueMatch (name : string) : option (string * string) :=
  match name with
  | EmptyString => None
  | String c rest =>
      if Ascii.eqb c "[" then
        match last_close rest with
        | Some k =>
            let key := JsString.take k rest in
            Some (String "[" (key ++ "]"), key)
        | None => arbitraryValueMatch rest
        end
      else arbitraryValueMatch rest
  end.

(** [definedToken[0].endsWith('-DEFAULT') ? definedToken[0].slice(0, -8)
    : definedToken[0]] *)
Definition canonical (first : string) : string :=
  if JsString.endsWith first "-DEFAULT" then JsString.slice_front first 8
  else first.

Section Forall.

Variable A : Type.
Variable f : A -> result (list report).

(** [arr.forEach(f)], the reports of the calls in order. *)
Fixpoint forEach (l : list A) : result (list report) :=
  match l with
  | [] => inr []
  | x :: l' =>
      r <- f x ;;
      rs <- forEach l' ;;
      inr (r ++ rs)
  end.

End Forall.

Arguments forEach {A} f l.

Section Walker.

(** [astUtil.extractClassnamesFromValue]: entry [i] of the result is
    [(classNames[i], classNamesIndex[i])]. *)
Variable extractClassnamesFromValue : jsval -> list (string * Z).

(** [groupUtil.parseClassname(cls, [], mergedConfig, idx).name] *)
Variable parseClassname : string -> nat -> string.

(** The [map] built by [create]. *)
Variable map : jsmap.

(** The body of [classNames.forEach((cls, idx) => ...)]: what the call
    pushes on [forbidden]. *)
Definition checkClass (start : Z) (idx : nat) (cls : string) (offset : Z)
    : result (list report) :=
  let name := parseClassname cls idx in
  match arbitraryValueMatch name with
  | None => inr []
  | Some (matched, key) =>
      match map_get map (JStr key) with
      | None => inr []
      | Some definedToken =>
          match definedToken with
          | [] => inl TypeError
          | first :: _ =>
              inr [{| arbitraryValue := key;
                      definedToken := definedToken;
                      fixInfo := {| fix_start := start + offset;
                                    fix_end := start + offset
                                               + Z.of_nat (String.length name);
                                    fixed := JsString.replace name matched
                                               (canonical first) |} |}]
          end
      end
  end.

Fixpoint checkClasses (start : Z) (idx : nat) (l : list (string * Z))
    : result (list report) :=
  match l with
  | [] => inr []
  | (cls, offset) :: l' =>
      r <- checkClass start idx cls offset ;;
      rs <- checkClasses start (S idx) l' ;;
      inr (r ++ rs)
  end.

(** Lines 161 to 196: the class names of one value, and the reports. *)
Definition reportValue (originalClassNamesValue : jsval) (start : Z)
    : result (list report) :=
  checkClasses start 0 (extractClassnamesFromValue originalClassNamesValue).

(** [parseForArbitraryValues(node)], the branch [arg === null]. *)
Definition parseRoot (node : rootNode) : result (list report) :=
  let range := extracted_range node in
  let start :=
    if String.eqb (node_type node) "TextAttribute" then fst range
    else (fst range + 1)%Z in
  reportValue (extracted_value node) start.

(** [parseForArbitraryValues(node, arg)] for a node [arg].  A
    [null] or [undefined] argument, which an array hole or an entry
    with neither [key] nor [value] (a spread element) gives, is the
    branch [arg === null].  A node without case leaves the [switch] with
    [originalClassNamesValue] and [start] still [null], and [null] counts
    as 0 in the sums of the fix. *)
Fixpoint parseArg (node : rootNode) (arg : expr) {struct arg}
    : result (list report) :=
  match arg with
  | Identifier _ => inr []
  | TemplateLiteral expressions quasis =>
      r1 <- forEach (parseArg node) expressions ;;
      r2 <- forEach (parseArg node) quasis ;;
      inr (r1 ++ r2)
  | ConditionalExpression _ consequent alternate =>
      r1 <- parseArg node consequent ;;
      r2 <- parseArg node alternate ;;
      inr (r1 ++ r2)
  | LogicalExpression _ rhs => parseArg node rhs
  | ArrayExpression elements =>
      forEach (fun el =>
                 match el with
                 | Some e => parseArg node e
                 | None => parseRoot node
                 end) elements
  | ObjectExpression properties =>
      let isUsedByClassNamesPlugin :=
        match callee_name node with
        | Some n => String.eqb n "classnames"
        | None => false
        end in
      let isVue :=
        match key_type node with
        | Some t => String.eqb t "VDirectiveKey"
        | None => false
        end in
      forEach (fun prop =>
                 match prop with
                 | Property key value =>
                     if isUsedByClassNamesPlugin || isVue
                     then parseArg node key
                     else parseArg node value
                 | _ => parseRoot node
                 end) properties
  | Property key _ => parseArg node key
  | Literal value range => reportValue value (fst range + 1)
  | TemplateElement raw range =>
      if String.eqb raw "" then inr []
      else reportValue (JStr raw) (fst range)
  | OtherNode _ _ => reportValue JNull 0
  end.

(** [parseForArbitraryValues(node, arg = null)] *)
Definition parseForArbitraryValues (node : rootNode) (arg : option expr)
    : result (list report) :=
  match arg with
  | None => parseRoot node
  | Some a => parseArg node a
  end.

End Walker.

End Rule.

(* ================================================================== *)
(** * The collaborators of the rule *)
(* ================================================================== *)

Module Host.

Import Theme Rule.

(** [\s] on code units below 256. *)
Definition is_space (c : ascii) : bool :=
  match nat_of_ascii c with
  | 9 | 10 | 11 | 12 | 13 | 32 | 160 => true
  | _ => false
  end.

Fixpoint space_run (s : string) : nat :=
  match s with
  | String c s' => if is_space c then S (space_run s') else 0
  | EmptyString => 0
  end.

(** The matcher of a non-empty run of white space, without capture
    group. *)
Definition spaces_run (str : string) (i : nat)
    : option (nat * list (option string)) :=
  match space_run (JsString.drop i str) with
  | O => None
  | S n => if (i <=? String.length str)%nat then Some (S n, []) else None
  end.

Lemma space_run_le (s : string) : space_run s <= String.length s.
Proof.
  induction s as [|c s IH]; simpl; [lia|].
  destruct (is_space c); lia.
Qed.

Lemma length_drop (n : nat) (s : string) :
  String.length (JsString.drop n s) = String.length s - n.
Proof.
  revert s; induction n as [|n IH]; intros [|c s]; simpl; auto.
Qed.

Lemma spaces_run_bound (str : string) (i len : nat)
    (caps : list (option string)) :
  spaces_run str i = Some (len, caps) -> i + len <= String.length str.
Proof.
  unfold spaces_run.
  pose proof (space_run_le (JsString.drop i str)) as Hle.
  rewrite length_drop in Hle.
  destruct (space_run (JsString.drop i str)) as [|n]; [discriminate|].
  destruct (Nat.leb_spec i (String.length str)); [|discriminate].
  intros [= <- _]. lia.
Qed.

Lemma spaces_run_groups (str : string) (i len : nat)
    (caps : list (option string)) :
  spaces_run str i = Some (len, caps) -> List.length caps = 0.
Proof.
  unfold spaces_run.
  destruct (space_run (JsString.drop i str)); [discriminate|].
  destruct (i <=? String.length str)%nat; [|discriminate].
  now intros [= _ <-].
Qed.

Definition spaces : Split.regex :=
  {| Split.run := spaces_run;
     Split.sticky := false;
     Split.groups := 0;
     Split.run_bound := spaces_run_bound;
     Split.run_groups := spaces_run_groups |}.

(** The matcher of the empty regular expression, which matches the empty
    string at every position. *)
Definition empty_run (str : string) (i : nat)
    : option (nat * list (option string)) :=
  if (i <=? String.length str)%nat then Some (0, []) else None.

Lemma empty_run_bound (str : string) (i len : nat)
    (caps : list (option string)) :
  empty_run str i = Some (len, caps) -> i + len <= String.length str.
Proof.
  unfold empty_run.
  destruct (Nat.leb_spec i (String.length str)); [|discriminate].
  intros [= <- _]. lia.
Qed.

Lemma empty_run_groups (str : string) (i len : nat)
    (caps : list (option string)) :
  empty_run str i = Some (len, caps) -> List.length caps = 0.
Proof.
  unfold empty_run.
  destruct (i <=? String.length str)%nat; [|discriminate].
  now intros [= _ <-].
Qed.

Definition emptyPattern : Split.regex :=
  {| Split.run := empty_run;
     Split.sticky := false;
     Split.groups := 0;
     Split.run_bound := empty_run_bound;
     Split.run_groups := empty_run_groups |}.

(** Modelled from the spec: [astUtil.extractClassnamesFromValue], the
    tokenizer.  It "splits a class-name string into individual tokens with
    per-token start offsets", a token being "one whitespace-delimited class
    name"; a value that is no string has no class names. *)
Definition extractClassnamesFromValue (v : jsval) : list (string * Z) :=
  match v with
  | JStr s =>
      flat_map (fun p =>
                  match Split.value p with
                  | Some w =>
                      if String.eqb w "" then []
                      else [(w, Z.of_nat (Split.index p))]
                  | None => []
                  end)
               (Split.splitWithIndex s spaces)
  | _ => []
  end.

(** Modelled from the spec: [groupUtil.parseClassname], the [name] of
    the parsed token.  For a class name without variant or prefix it is
    the class name. *)
Definition parseClassname (cls : string) (idx : nat) : string := cls.

(** The rule with these collaborators. *)
Definition lint (map : jsmap) (node : rootNode) (arg : option expr)
    : result (list report) :=
  parseForArbitraryValues extractClassnamesFromValue parseClassname map
    node arg.

(** The index [create] builds, starting from an empty heap. *)
Definition themeIndex (mergedConfig : jsval) : result jsmap :=
  r <- create_index mergedConfig [] ;;
  match load (snd r) (fst r) with
  | Some m => inr m
  | None => inl TypeError
  end.

Definition quote : string := String "034" "".

(** The text of a JSX attribute [name="value"] placed after [before]. *)
Definition attributeSource (before name value after : string) : string :=
  before ++ name ++ "=" ++ quote ++ value ++ quote ++ after.

(** Modelled from the spec: [astUtil.extractValueFromNode] and
    [astUtil.extractRangeFromNode] on a JSX attribute with a string
    value: "extract the literal value and raw source range directly from
    the node itself", the range being that of the quoted literal. *)
Definition jsxAttribute (before name value : string) : rootNode :=
  let open := Z.of_nat (String.length before + String.length name + 1) in
  {| node_type := "JSXAttribute";
     callee_name := None;
     key_type := None;
     extracted_value := JStr value;
     extracted_range :=
       (open, (open + Z.of_nat (String.length value) + 2)%Z) |}.

(** [text.slice(a, b)] for offsets within the text. *)
Definition slice (text : string) (a b : Z) : string :=
  JsString.substring text (Z.to_nat a) (Z.to_nat b).

(** Modelled from the spec: the Reporter Adapter applying the fixes of
    one pass, each "a single exclusive text-range replacement
    [start, end) -> fixedText"; the fixes come in the order of their ranges
    and one that starts before the end of the previous one is left out. *)
Fixpoint applyFixes (text : string) (lastPos : Z) (fixes : list fix_info)
    : string :=
  match fixes with
  | [] => slice text lastPos (Z.of_nat (String.length text))
  | f :: rest =>
      if (fix_start f <? lastPos)%Z then applyFixes text lastPos rest
      else slice text lastPos (fix_start f) ++ fixed f
           ++ applyFixes text (fix_end f) rest
  end.

Definition fixAll (text : string) (reports : list report) : string :=
  applyFixes text 0 (List.map fixInfo reports).

(** ** The configuration of the tests *)

Definition testColors : jsval :=
  JObj 2 [("gray", JObj 3 [("DEFAULT", JStr "#332233");
                           ("layout", JStr "#f0f2f5");
                           ("flow", JStr "#f0f2f5")]);
          ("flow", JStr "#123456")].

Definition testConfig : jsval :=
  JObj 0 [("theme", JObj 1 [("colors", testColors)]);
          ("plugins", JArr 4 [])].

Definition testIndex : jsmap :=
  [(JStr "#332233", ["gray-DEFAULT"]);
   (JStr "#f0f2f5", ["gray-layout"; "gray-flow"]);
   (JStr "#123456", ["flow"])].

(** ** Examples for the walker *)

(** A call of an allow-listed helper, the root of the examples below;
    nothing is read from it. *)
Definition callRoot : rootNode :=
  {| node_type := "CallExpression";
     callee_name := Some "ctl";
     key_type := None;
     extracted_value := JUndefined;
     extracted_range := (0, 0)%Z |}.

(** A theme index naming three lengths. *)
Definition pxIndex : jsmap :=
  [(JStr "1px", ["one"]); (JStr "2px", ["two"]); (JStr "3px", ["three"])].

(** The string literal ["text"] whose opening quote stands at [at]. *)
Definition quoted (text : string) (at_ : Z) : expr :=
  Literal (JStr text) (at_, (at_ + Z.of_nat (String.length text) + 2)%Z).

(** The report of the class name [cls], standing at [start], whose
    bracketed [value] the theme names [token]. *)
Definition reportOf (cls value token fixedText : string) (start : Z) : report :=
  {| arbitraryValue := value;
     definedToken := [token];
     fixInfo := {| fix_start := start;
                   fix_end := (start + Z.of_nat (String.length cls))%Z;
                   fixed := fixedText |} |}.

End Host.

(* ================================================================== *)
(** * The notions of the specification *)
(* ================================================================== *)

Module Spec.

Import Theme Rule.

(** ** Theme Index Builder *)

(** The depth-first traversal of the specification, as the sequence of
    the collector's invocations: at each mapping the keys in enumeration
    order, a plain nested mapping being entered with the path extended by
    its key, every other value being a leaf. *)
Fixpoint calls (obj : jsval) (path : list string) {struct obj}
    : list (jsval * list string) :=
  match obj with
  | JObj _ props =>
      (fix entries (l : list (string * jsval)) : list (jsval * list string) :=
         match l with
         | [] => []
         | (key, v) :: l' =>
             (if is_plain_mapping v then calls v (path ++ [key])
              else [(v, path ++ [key])]) ++ entries l'
         end) props
  | JArr _ elems =>
      (fix items (l : list jsval) (i : nat) : list (jsval * list string) :=
         match l with
         | [] => []
         | v :: l' =>
             (if is_plain_mapping v then calls v (path ++ [index_key i])
              else [(v, path ++ [index_key i])]) ++ items l' (S i)
         end) elems 0%nat
  | JStr s =>
      (fix chars (s : string) (i : nat) : list (jsval * list string) :=
         match s with
         | EmptyString => []
         | String c s' =>
             (JStr (String c EmptyString), path ++ [index_key i])
             :: chars s' (S i)
         end) s 0%nat
  | _ => []
  end.

(** The collector's invocations [cs] run on a state. *)
Definition run_calls {St : Type} (callback : jsval -> list string -> St -> St)
    (cs : list (jsval * list string)) (st : St) : St :=
  fold_left (fun st c => callback (fst c) (snd c) st) cs st.

(** The calls made for the properties [props] of a mapping. *)
Definition calls_of_props (path : list string) (props : list (string * jsval))
    : list (jsval * list string) :=
  flat_map (fun kv =>
              if is_plain_mapping (snd kv)
              then calls (snd kv) (path ++ [fst kv])
              else [(snd kv, path ++ [fst kv])]) props.

(** [Object.keys(obj)] throws. *)
Definition nullish (obj : jsval) : bool :=
  match obj with
  | JUndefined | JNull => true
  | _ => false
  end.

(** [leaf_at obj path v]: following the keys of [path] from the mapping
    [obj] leads through plain mappings to [v], which is none. *)
Inductive leaf_at : jsval -> list string -> jsval -> Prop :=
| leaf_here id props key v :
    In (key, v) props ->
    is_plain_mapping v = false ->
    leaf_at (JObj id props) [key] v
| leaf_below id props key id' props' path v :
    In (key, JObj id' props') props ->
    leaf_at (JObj id' props') path v ->
    leaf_at (JObj id props) (key :: path) v.

(** The index as a pure fold of the collector over the invocations. *)
Definition buildIndex (cs : list (jsval * list string)) : jsmap :=
  fold_left (fun m c => collector (fst c) (snd c) m) cs [].

(** The dash-joined paths at which [v] occurs among the leaves [cs], in
    discovery order. *)
Definition paths_of (v : jsval) (cs : list (jsval * list string))
    : list string :=
  List.map (fun c => JsString.join "-" (snd c))
    (filter (fun c => same_value_zero (fst c) v) cs).

(** An index entry: absent when there is no path. *)
Definition entry (paths : list string) : option (list string) :=
  match paths with
  | [] => None
  | _ :: _ => Some paths
  end.

(** ** Structural Walker *)

(** The values [parseForArbitraryValues] hands to the tokenizer, each
    with the offset its class names are counted from, in the order of the
    traversal.  A node the [switch] has no case for leaves it with
    [originalClassNamesValue] and [start] as they were declared: [null],
    which counts as 0 in the additions of the matcher. *)
Definition rootLeaf (node : rootNode) : jsval * Z :=
  (extracted_value node,
   if String.eqb (node_type node) "TextAttribute"
   then fst (extracted_range node)
   else (fst (extracted_range node) + 1)%Z).

Fixpoint leavesOf (node : rootNode) (arg : expr) {struct arg}
    : list (jsval * Z) :=
  match arg with
  | Identifier _ => []
  | TemplateLiteral expressions quasis =>
      flat_map (leavesOf node) expressions ++ flat_map (leavesOf node) quasis
  | ConditionalExpression _ consequent alternate =>
      leavesOf node consequent ++ leavesOf node alternate
  | LogicalExpression _ rhs => leavesOf node rhs
  | ArrayExpression elements =>
      flat_map (fun el =>
                  match el with
                  | Some e => leavesOf node e
                  | None => [rootLeaf node]
                  end) elements
  | ObjectExpression properties =>
      let useKey :=
        match callee_name node with
        | Some n => String.eqb n "classnames"
        | None => false
        end
        || match key_type node with
           | Some t => String.eqb t "VDirectiveKey"
           | None => false
           end in
      flat_map (fun prop =>
                  match prop with
                  | Property key value =>
                      if useKey then leavesOf node key
                      else leavesOf node value
                  | _ => [rootLeaf node]
                  end) properties
  | Property key _ => leavesOf node key
  | Literal value range => [(value, (fst range + 1)%Z)]
  | TemplateElement raw range =>
      if String.eqb raw "" then [] else [(JStr raw, fst range)]
  | OtherNode _ _ => [(JNull, 0%Z)]
  end.

(** The reports of the leaves [ls], in order. *)
Definition reportLeaves (extract : jsval -> list (string * Z))
    (parse : string -> nat -> string) (map : jsmap) (ls : list (jsval * Z))
    : result (list report) :=
  forEach (fun l => reportValue extract parse map (fst l) (snd l)) ls.

(** What an induction hypothesis says about an entry of an object
    expression: the walker enters its key or its value. *)
Definition on_entry (P : expr -> Prop) (prop : expr) : Prop :=
  match prop with
  | Property key value => P key /\ P value
  | _ => True
  end.

Definition on_element (P : expr -> Prop) (el : option expr) : Prop :=
  match el with
  | Some e => P e
  | None => True
  end.

(** ** Matcher *)

(** The fix range of the specification for the class name at position
    [idx] of a leaf starting at [start]. *)
Definition range_of (parse : string -> nat -> string) (start : Z)
    (idx : nat) (tok : string * Z) (r : report) : Prop :=
  fix_start (fixInfo r) = (start + snd tok)%Z
  /\ fix_end (fixInfo r)
     = (start + snd tok + Z.of_nat (String.length (parse (fst tok) idx)))%Z.

End Spec.

(* ================================================================== *)
(** * The entry points of the rule *)
(* ================================================================== *)

Module Visitors.

Import Theme Rule.

(** The options [create] reads with [getOption] and the visitors use. *)
Record options : Type := {
  callees : list string;
  skipClassAttribute : bool;
  tags : list string
}.

(** A [JSXAttribute] or [TextAttribute] node, with what [attributeVisitor]
    reads from it: [astUtil.isClassAttribute(node, classRegex)],
    [astUtil.isLiteralAttributeValue(node)], [node.value.type] when
    [node.value] is set, and [node.value.expression]. *)
Record attributeNode : Type := {
  attr_root : rootNode;
  isClassAttribute : bool;
  isLiteralAttributeValue : bool;
  value_type : option string;
  value_expression : option expr
}.

(** A [CallExpression] node: [astUtil.calleeToString(node.callee)], a
    string or [undefined], and [node.arguments]. *)
Record callNode : Type := {
  call_root : rootNode;
  calleeStr : option string;
  arguments : list expr
}.

(** A [TaggedTemplateExpression] node: [node.tag.name] and [node.quasi]. *)
Record taggedNode : Type := {
  tagged_root : rootNode;
  tag_name : option string;
  quasi : expr
}.

(** A [VAttribute] node: the four tests of [astUtil] on it, and the
    [elements] and [properties] of [node.value.expression]. *)
Record vAttributeNode : Type := {
  v_root : rootNode;
  isValidVueAttribute : bool;
  isVLiteralValue : bool;
  isArrayExpression : bool;
  isObjectExpression : bool;
  v_elements : list (option expr);
  v_properties : list expr
}.

(** [list.includes(name)] for a name that may be [undefined]. *)
Definition includes (l : list string) (name : option string) : bool :=
  match name with
  | Some n => existsb (String.eqb n) l
  | None => false
  end.

Section Visitors.

Variable extract : jsval -> list (string * Z).
Variable parse : string -> nat -> string.
Variable map : jsmap.
Variable opts : options.

(** Lines 203 to 212. *)
Definition attributeVisitor (node : attributeNode) : result (list report) :=
  if negb (isClassAttribute node) || skipClassAttribute opts then inr []
  else if isLiteralAttributeValue node then
    parseForArbitraryValues extract parse map (attr_root node) None
  else
    match value_type node with
    | Some t =>
        if String.eqb t "JSXExpressionContainer" then
          parseForArbitraryValues extract parse map (attr_root node)
            (value_expression node)
        else inr []
    | None => inr []
    end.

(** Lines 214 to 222. *)
Definition callExpressionVisitor (node : callNode) : result (list report) :=
  if negb (includes (callees opts) (calleeStr node)) then inr []
  else
    forEach (fun arg =>
               parseForArbitraryValues extract parse map (call_root node)
                 (Some arg))
            (arguments node).

(** Lines 228 to 233. *)
Definition taggedTemplateVisitor (node : taggedNode) : result (list report) :=
  if negb (includes (tags opts) (tag_name node)) then inr []
  else
    parseForArbitraryValues extract parse map (tagged_root node)
      (Some (quasi node)).

(** Lines 242 to 260: the cases of [switch (true)], the first that holds
    being taken. *)
Definition vAttributeVisitor (node : vAttributeNode) : result (list report) :=
  if negb (isValidVueAttribute node) then inr []
  else if isVLiteralValue node then
    parseForArbitraryValues extract parse map (v_root node) None
  else if isArrayExpression node then
    forEach (fun arg =>
               parseForArbitraryValues extract parse map (v_root node) arg)
            (v_elements node)
  else if isObjectExpression node then
    forEach (fun prop =>
               parseForArbitraryValues extract parse map (v_root node)
                 (Some prop))
            (v_properties node)
  else inr [].

(** A node the host framework hands to the rule, by the key of
    [scriptVisitor] and [templateVisitor] it is handed to. *)
Inductive visited : Type :=
| JSXAttribute (node : attributeNode)
| TextAttribute (node : attributeNode)
| CallExpression (node : callNode)
| TaggedTemplateExpression (node : taggedNode)
| VAttribute (node : vAttributeNode).

Definition visit (v : visited) : result (list report) :=
  match v with
  | JSXAttribute node | TextAttribute node => attributeVisitor node
  | CallExpression node => callExpressionVisitor node
  | TaggedTemplateExpression node => taggedTemplateVisitor node
  | VAttribute node => vAttributeVisitor node
  end.

End Visitors.

End Visitors.

(* ================================================================== *)
(** * What the callers of the functions rely on *)
(* ================================================================== *)

Module Notions.

Import Theme Rule Split SplitSpec.

(** ** [splitWithIndex] *)

(** Where a piece ends in the string. *)
Definition piece_end (p : piece) : nat :=
  index p + match value p with
            | Some v => String.length v
            | None => 0
            end.

(** The pieces [l] follow one another from [lo] on: each starts at or
    after the end of the one before. *)
Fixpoint follows (lo : nat) (l : list piece) : Prop :=
  match l with
  | [] => True
  | p :: l' => lo <= index p /\ follows (piece_end p) l'
  end.

(** The values of the pieces, one after the other. *)
Fixpoint text_of (l : list piece) : string :=
  match l with
  | [] => ""
  | p :: l' =>
      (match value p with
       | Some v => v
       | None => ""
       end ++ text_of l')%string
  end.

(** The separator never matches the empty string in [str]. *)
Definition never_empty (re : regex) (str : string) : Prop :=
  forall i caps, run re str i <> Some (0, caps).

(** The separator is a single capture group around the whole pattern. *)
Definition captures_whole (re : regex) : Prop :=
  forall str i len caps,
    run re str i = Some (len, caps) ->
    caps = [Some (JsString.substring str i (i + len))].

(** The separator matches at no position of the piece. *)
Definition separator_free (re : regex) (str : string) (p : piece) : Prop :=
  forall j, index p <= j < piece_end p -> run re str j = None.

(** The matches [ms] are all the matches from [lastIndex] on: the
    separator matches at no position before a match that [exec] tried, nor
    after the last one. *)
Fixpoint exhaustive (re : regex) (str : string) (lastIndex : nat)
    (ms : list regexMatch) : Prop :=
  match ms with
  | [] => forall j, lastIndex <= j <= String.length str -> run re str j = None
  | m :: ms' =>
      (forall j, lastIndex <= j < m_index m -> run re str j = None)
      /\ exhaustive re str (resume m) ms'
  end.

(** ** The traversal *)

(** The call hands a value that is no plain mapping, under a path that
    extends [path] by one key at least. *)
Definition call_below (path : list string) (c : jsval * list string) : Prop :=
  is_plain_mapping (fst c) = false
  /\ exists q, q <> [] /\ snd c = path ++ q.

(** ** The index *)

(** No two keys of the map are the same value. *)
Fixpoint distinct_keys (m : jsmap) : Prop :=
  match m with
  | [] => True
  | (k, _) :: m' => map_get m' k = None /\ distinct_keys m'
  end.

(** The number of paths the map holds. *)
Definition path_count (m : jsmap) : nat :=
  List.length (concat (List.map snd m)).

(** ** The reports *)

(** The report names a value of the index and carries its entry. *)
Definition names_theme_value (map : jsmap) (r : report) : Prop :=
  map_get map (JStr (arbitraryValue r)) = Some (definedToken r)
  /\ definedToken r <> [].

(** The class names [l], the first at position [idx], follow one
    another from the offset [lo] on: each parsed name ends before the next
    class name starts. *)
Fixpoint spans_follow (parse : string -> nat -> string) (lo : Z) (idx : nat)
    (l : list (string * Z)) : Prop :=
  match l with
  | [] => True
  | (cls, offset) :: l' =>
      (lo <= offset)%Z
      /\ spans_follow parse
           (offset + Z.of_nat (String.length (parse cls idx))) (S idx) l'
  end.

(** The fixes of [rs] follow one another from [lo] on, without
    overlap. *)
Fixpoint fixes_follow (lo : Z) (rs : list report) : Prop :=
  match rs with
  | [] => True
  | r :: rs' =>
      (lo <= fix_start (fixInfo r))%Z
      /\ (fix_start (fixInfo r) <= fix_end (fixInfo r))%Z
      /\ fixes_follow (fix_end (fixInfo r)) rs'
  end.

End Notions.

(* ================================================================== *)
(** * A separator with a capture group *)
(* ================================================================== *)

Module Samples.

Import Theme Rule Host Visitors.

(** The matcher of a non-empty run of white space in a capture group,
    the separator of a tokenizer that keeps the white space. *)
Definition captured_spaces_run (str : string) (i : nat)
    : option (nat * list (option string)) :=
  match spaces_run str i with
  | Some (len, _) => Some (len, [Some (JsString.substring str i (i + len))])
  | None => None
  end.

Lemma captured_spaces_run_bound (str : string) (i len : nat)
    (caps : list (option string)) :
  captured_spaces_run str i = Some (len, caps) -> i + len <= String.length str.
Proof.
  unfold captured_spaces_run.
  destruct (spaces_run str i) as [[n c]|] eqn:Hrun; [|discriminate].
  intros [= <- _]. exact (spaces_run_bound _ _ _ _ Hrun).
Qed.

Lemma captured_spaces_run_groups (str : string) (i len : nat)
    (caps : list (option string)) :
  captured_spaces_run str i = Some (len, caps) -> List.length caps = 1.
Proof.
  unfold captured_spaces_run.
  destruct (spaces_run str i) as [[n c]|]; [|discriminate].
  now intros [= _ <-].
Qed.

Definition capturedSpaces : Split.regex :=
  {| Split.run := captured_spaces_run;
     Split.sticky := false;
     Split.groups := 1;
     Split.run_bound := captured_spaces_run_bound;
     Split.run_groups := captured_spaces_run_groups |}.



(** The options of the examples: the helper [ctl] and the tag [tw]. *)
Definition someOptions : options :=
  {| callees := ["classnames"; "ctl"];
     skipClassAttribute := true;
     tags := ["tw"] |}.

(** The call [ctl(c ? "a-[1px]" : "b-[2px]")]. *)
Definition someCall : callNode :=
  {| call_root := callRoot;
     calleeStr := Some "ctl";
     arguments := [ConditionalExpression (Identifier "c")
                     (quoted "a-[1px]" 8) (quoted "b-[2px]" 20)] |}.

End Samples.

(* ================================================================== *)
(** * Properties of the theme index *)
(* ================================================================== *)

Module ThemeFacts.

Import Theme Spec.

(** ** Induction on values *)

Lemma jsval_nested_ind (P : jsval -> Prop) :
  P JUndefined -> P JNull ->
  (forall b, P (JBool b)) -> (forall n, P (JNum n)) ->
  (forall s, P (JStr s)) -> (forall id, P (JFun id)) ->
  (forall id elems, Forall P elems -> P (JArr id elems)) ->
  (forall id props, Forall (fun kv => P (snd kv)) props -> P (JObj id props)) ->
  forall v, P v.
Proof.
  intros Hu Hn Hb Hz Hs Hf Ha Ho.
  fix IH 1.
  intros [| | b | n | s | id | id elems | id props];
    [ exact Hu | exact Hn | apply Hb | apply Hz | apply Hs | apply Hf | | ].
  - apply Ha. induction elems as [|e elems IHl]; constructor.
    + apply IH.
    + exact IHl.
  - apply Ho. induction props as [|[k e] props IHl]; constructor.
    + apply IH.
    + exact IHl.
Qed.

(** ** [SameValueZero] is an equivalence *)

Lemma same_value_zero_refl (a : jsval) : same_value_zero a a = true.
Proof.
  destruct a; simpl; auto using Bool.eqb_reflx, Z.eqb_refl, String.eqb_refl,
    Nat.eqb_refl.
Qed.

Lemma same_value_zero_sym (a b : jsval) :
  same_value_zero a b = same_value_zero b a.
Proof.
  destruct a, b; simpl; auto using Z.eqb_sym, String.eqb_sym, Nat.eqb_sym.
  destruct b, b0; reflexivity.
Qed.

Lemma same_value_zero_trans (a b c : jsval) :
  same_value_zero a b = true -> same_value_zero b c = true ->
  same_value_zero a c = true.
Proof.
  destruct a, b; simpl; try discriminate; destruct c; simpl;
    try discriminate; auto; intros H1 H2;
    repeat match goal with
      | H : Bool.eqb _ _ = true |- _ => apply Bool.eqb_prop in H
      | H : Z.eqb _ _ = true |- _ => apply Z.eqb_eq in H
      | H : String.eqb _ _ = true |- _ => apply String.eqb_eq in H
      | H : Nat.eqb _ _ = true |- _ => apply Nat.eqb_eq in H
      end; subst;
    auto using Bool.eqb_reflx, Z.eqb_refl, String.eqb_refl, Nat.eqb_refl.
Qed.

(** Equivalent keys compare alike with every third key. *)
Lemma same_value_zero_congr (a b c : jsval) :
  same_value_zero a b = true ->
  same_value_zero a c = same_value_zero b c.
Proof.
  intros Hab.
  destruct (same_value_zero b c) eqn:Hbc.
  - eapply same_value_zero_trans; eauto.
  - destruct (same_value_zero a c) eqn:Hac; auto.
    rewrite <- Hbc. symmetry.
    eapply same_value_zero_trans; [|exact Hac].
    now rewrite same_value_zero_sym.
Qed.

(** ** The traversal calls the collector on [calls] *)

Section Trace.

Variable St : Type.
Variable callback : jsval -> list string -> St -> St.

Lemma run_calls_app (cs1 cs2 : list (jsval * list string)) (st : St) :
  run_calls callback (cs1 ++ cs2) st
  = run_calls callback cs2 (run_calls callback cs1 st).
Proof. apply fold_left_app. Qed.

Lemma traverseObject_calls (obj : jsval) :
  forall path st,
    traverseObject St callback obj path st
    = if nullish obj then inl TypeError
      else inr (run_calls callback (calls obj path) st).
Proof.
  induction obj as [| | b | n | s | id | id elems IH | id props IH]
    using jsval_nested_ind; intros path st; simpl; try reflexivity.
  - generalize 0%nat. revert st.
    induction s as [|c s IHs]; intros st i; simpl;
      [reflexivity | apply IHs].
  - generalize 0%nat. revert st.
    induction IH as [|v elems Hv _ IHl]; intros st i; simpl;
      [reflexivity|].
    destruct (is_plain_mapping v) eqn:Hpm.
    + rewrite Hv. destruct v; try discriminate. simpl.
      rewrite IHl, run_calls_app. reflexivity.
    + simpl. rewrite IHl. reflexivity.
  - revert st.
    induction IH as [|[k v] props Hv _ IHl]; intros st; simpl;
      [reflexivity|].
    simpl in Hv.
    destruct (is_plain_mapping v) eqn:Hpm.
    + rewrite Hv. destruct v; try discriminate. simpl.
      rewrite IHl, run_calls_app. reflexivity.
    + simpl. rewrite IHl. reflexivity.
Qed.

End Trace.

(** ** Lookup in the map *)

Lemma map_get_congr (m : jsmap) (a b : jsval) :
  same_value_zero a b = true -> map_get m a = map_get m b.
Proof.
  intros Hab. induction m as [|[k l] m IH]; simpl; [reflexivity|].
  rewrite IH.
  replace (same_value_zero k b) with (same_value_zero k a); [reflexivity|].
  rewrite !(same_value_zero_sym k). now apply same_value_zero_congr.
Qed.

(** Two keys equivalent to a third one are equivalent. *)
Lemma same_value_zero_meet (k a b : jsval) :
  same_value_zero k a = true -> same_value_zero b a = true ->
  same_value_zero k b = true.
Proof.
  intros Hka Hba. eapply same_value_zero_trans; [exact Hka|].
  now rewrite same_value_zero_sym.
Qed.

Lemma map_get_push (m : jsmap) (k v : jsval) (p : string) :
  map_get (map_push m k p) v
  = if same_value_zero k v
    then option_map (fun l => l ++ [p]) (map_get m v)
    else map_get m v.
Proof.
  induction m as [|[k' l] m IH]; simpl.
  - now destruct (same_value_zero k v).
  - destruct (same_value_zero k' k) eqn:Hk; simpl.
    + rewrite (same_value_zero_congr k' k v Hk).
      now destruct (same_value_zero k v).
    + rewrite IH.
      destruct (same_value_zero k' v) eqn:Hv;
        destruct (same_value_zero k v) eqn:Hkv; try reflexivity.
      rewrite (same_value_zero_meet k' v k Hv Hkv) in Hk. discriminate.
Qed.

Lemma map_get_set (m : jsmap) (k v : jsval) (l : list string) :
  map_get m k = None ->
  map_get (map_set m k l) v
  = if same_value_zero k v then Some l else map_get m v.
Proof.
  induction m as [|[k' l'] m IH]; simpl; intros Hnone.
  - reflexivity.
  - destruct (same_value_zero k' k) eqn:Hk; [discriminate|]. simpl.
    rewrite (IH Hnone).
    destruct (same_value_zero k' v) eqn:Hv;
      destruct (same_value_zero k v) eqn:Hkv; try reflexivity.
    rewrite (same_value_zero_meet k' v k Hv Hkv) in Hk. discriminate.
Qed.

(** What the collector does to the entry of every key. *)
Lemma map_get_collector (m : jsmap) (k v : jsval) (path : list string) :
  map_get (collector k path m) v
  = if same_value_zero k v
    then Some (match map_get m v with
               | Some l => l ++ [JsString.join "-" path]
               | None => [JsString.join "-" path]
               end)
    else map_get m v.
Proof.
  unfold collector, map_has.
  destruct (map_get m k) as [l|] eqn:Hk.
  - rewrite map_get_push.
    destruct (same_value_zero k v) eqn:Hkv; [|reflexivity].
    rewrite <- (map_get_congr m k v Hkv), Hk. reflexivity.
  - rewrite (map_get_set _ _ _ _ Hk).
    destruct (same_value_zero k v) eqn:Hkv; [|reflexivity].
    rewrite <- (map_get_congr m k v Hkv), Hk. reflexivity.
Qed.

Lemma buildIndex_snoc (cs : list (jsval * list string)) (c : jsval * list string) :
  buildIndex (cs ++ [c]) = collector (fst c) (snd c) (buildIndex cs).
Proof. unfold buildIndex. now rewrite fold_left_app. Qed.

Lemma paths_of_snoc (v : jsval) (cs : list (jsval * list string))
    (c : jsval * list string) :
  paths_of v (cs ++ [c])
  = paths_of v cs
    ++ (if same_value_zero (fst c) v then [JsString.join "-" (snd c)] else []).
Proof.
  unfold paths_of. rewrite filter_app, map_app. simpl.
  now destruct (same_value_zero (fst c) v).
Qed.

(** The entry of a value holds its paths, in discovery order. *)
Lemma map_get_buildIndex (cs : list (jsval * list string)) (v : jsval) :
  map_get (buildIndex cs) v = entry (paths_of v cs).
Proof.
  induction cs as [|c cs IH] using rev_ind; [reflexivity|].
  rewrite buildIndex_snoc, paths_of_snoc, map_get_collector, IH.
  destruct (same_value_zero (fst c) v).
  - destruct (paths_of v cs); reflexivity.
  - now rewrite app_nil_r.
Qed.

(** Every entry of a built index is a non-empty array. *)
Lemma buildIndex_nonempty (cs : list (jsval * list string)) (v : jsval) :
  map_get (buildIndex cs) v <> Some [].
Proof.
  rewrite map_get_buildIndex. destruct (paths_of v cs); discriminate.
Qed.

(** ** The heap *)

Lemma load_last (h : heap) (m : jsmap) : load (h ++ [m]) (length h) = Some m.
Proof.
  unfold load. rewrite nth_error_app2, Nat.sub_diag; [reflexivity|lia].
Qed.

Lemma load_old (h : heap) (m : jsmap) (a : addr) :
  a < length h -> load (h ++ [m]) a = load h a.
Proof. intros Ha. unfold load. now rewrite nth_error_app1. Qed.

Lemma store_last (h : heap) (m m' : jsmap) :
  store (h ++ [m]) (length h) m' = h ++ [m'].
Proof. induction h as [|x h IH]; simpl; [reflexivity|now rewrite IH]. Qed.

Lemma run_calls_heap (cs : list (jsval * list string)) (h : heap) :
  forall m,
    run_calls (collector_at (length h)) cs (h ++ [m])
    = h ++ [run_calls collector cs m].
Proof.
  induction cs as [|c cs IH]; intros m; simpl; [reflexivity|].
  unfold collector_at at 2. rewrite load_last, store_last. apply IH.
Qed.

(** [create] throws when the colors are missing, and otherwise allocates
    a map holding the index of the calls of the traversal. *)
Lemma create_index_spec (mergedConfig theme colors : jsval) (h : heap) :
  getProp mergedConfig "theme" = inr theme ->
  getProp theme "colors" = inr colors ->
  create_index mergedConfig h
  = if nullish colors then inl TypeError
    else inr (length h, h ++ [buildIndex (calls colors [])]).
Proof.
  intros Ht Hc. unfold create_index. rewrite Ht. simpl. rewrite Hc. simpl.
  rewrite traverseObject_calls.
  destruct (nullish colors); [reflexivity|]. simpl.
  rewrite run_calls_heap. reflexivity.
Qed.

(** A successful [create] read the colors of the configuration. *)
Lemma create_index_inv (mergedConfig : jsval) (h : heap) (a : addr)
    (h' : heap) :
  create_index mergedConfig h = inr (a, h') ->
  exists theme colors,
    getProp mergedConfig "theme" = inr theme
    /\ getProp theme "colors" = inr colors
    /\ nullish colors = false.
Proof.
  intros Hrun.
  destruct (getProp mergedConfig "theme") as [e|theme] eqn:Ht.
  { unfold create_index in Hrun. rewrite Ht in Hrun. discriminate. }
  destruct (getProp theme "colors") as [e|colors] eqn:Hc.
  { unfold create_index in Hrun. rewrite Ht in Hrun. simpl in Hrun.
    rewrite Hc in Hrun. discriminate. }
  rewrite (create_index_spec _ _ _ _ Ht Hc) in Hrun.
  exists theme, colors. split; [reflexivity|]. split; [exact Hc|].
  now destruct (nullish colors).
Qed.

(** ** The calls are the leaves *)

Lemma calls_JObj (id : nat) (props : list (string * jsval))
    (path : list string) :
  calls (JObj id props) path = calls_of_props path props.
Proof.
  unfold calls_of_props. simpl.
  induction props as [|[k v] props IH]; simpl; [reflexivity|].
  now rewrite IH.
Qed.

Lemma calls_leaf_at (obj : jsval) :
  forall id props, obj = JObj id props ->
  forall prefix v path,
    In (v, path) (calls obj prefix)
    <-> exists p, path = prefix ++ p /\ leaf_at obj p v.
Proof.
  induction obj as [| | b | n | s | i | i elems _ | i ps IH]
    using jsval_nested_ind; intros id props [=]; subst i ps.
  intros prefix v path. rewrite calls_JObj. unfold calls_of_props.
  rewrite in_flat_map. rewrite Forall_forall in IH. split.
  - intros [[k w] [Hin Hcall]]. simpl in Hcall.
    destruct (is_plain_mapping w) eqn:Hpm.
    + destruct w as [| | | | | | |id' props']; try discriminate.
      apply (IH _ Hin id' props' eq_refl) in Hcall.
      destruct Hcall as [p [-> Hleaf]].
      exists (k :: p). split.
      * now rewrite <- app_assoc.
      * eapply leaf_below; eauto.
    + destruct Hcall as [[= <- <-]|[]].
      exists [k]. split; [reflexivity|]. now apply leaf_here.
  - intros [p [-> Hleaf]].
    inversion Hleaf as [? ? k w Hin Hpm|? ? k id' props' p' w Hin Hsub];
      subst.
    + exists (k, v). split; [exact Hin|]. simpl. rewrite Hpm. now left.
    + exists (k, JObj id' props'). split; [exact Hin|]. simpl.
      apply (IH _ Hin id' props' eq_refl). exists p'. split; [|exact Hsub].
      now rewrite <- app_assoc.
Qed.

(** From the root of the colors on, the collector is called on the leaves
    and on nothing else. *)
Lemma calls_are_leaves (id : nat) (props : list (string * jsval))
    (v : jsval) (path : list string) :
  In (v, path) (calls (JObj id props) []) <-> leaf_at (JObj id props) path v.
Proof.
  rewrite (calls_leaf_at _ id props eq_refl). simpl. split.
  - now intros [p [-> H]].
  - intros H. now exists path.
Qed.

End ThemeFacts.

(* ================================================================== *)
(** * Properties of the walker *)
(* ================================================================== *)

Module WalkerFacts.

Import Theme Rule Spec.

(** ** Induction on syntax trees *)

Lemma expr_nested_ind (P : expr -> Prop) :
  (forall name, P (Identifier name)) ->
  (forall es qs, Forall P es -> Forall P qs -> P (TemplateLiteral es qs)) ->
  (forall t c a, P c -> P a -> P (ConditionalExpression t c a)) ->
  (forall l r, P r -> P (LogicalExpression l r)) ->
  (forall els, Forall (on_element P) els -> P (ArrayExpression els)) ->
  (forall props, Forall (on_entry P) props -> P (ObjectExpression props)) ->
  (forall k v, P k -> P (Property k v)) ->
  (forall v r, P (Literal v r)) ->
  (forall raw r, P (TemplateElement raw r)) ->
  (forall ty kids, P (OtherNode ty kids)) ->
  forall e, P e.
Proof.
  intros Hid Htl Hc Hl Ha Ho Hp Hlit Hte Hother.
  fix IH 1.
  intros [name | es qs | t c a | l r | els | props | k v | v r | raw r
         | ty kids].
  - apply Hid.
  - apply Htl.
    + induction es as [|e es IHl]; constructor; [apply IH | exact IHl].
    + induction qs as [|e qs IHl]; constructor; [apply IH | exact IHl].
  - apply Hc; apply IH.
  - apply Hl; apply IH.
  - apply Ha. induction els as [|[e|] els IHl]; constructor.
    + simpl. apply IH.
    + exact IHl.
    + exact I.
    + exact IHl.
  - apply Ho. induction props as [|prop props IHl]; constructor.
    + destruct prop; simpl; try exact I. split; apply IH.
    + exact IHl.
  - apply Hp; apply IH.
  - apply Hlit.
  - apply Hte.
  - apply Hother.
Qed.

(** ** Sequencing *)

Lemma forEach_app {A : Type} (f : A -> result (list report)) (l1 l2 : list A) :
  forEach f (l1 ++ l2)
  = bind (forEach f l1) (fun r1 =>
      bind (forEach f l2) (fun r2 => inr (r1 ++ r2))).
Proof.
  induction l1 as [|x l1 IH]; simpl.
  - destruct (forEach f l2); reflexivity.
  - destruct (f x) as [e|r]; simpl; [reflexivity|].
    rewrite IH. destruct (forEach f l1) as [e|r1]; simpl; [reflexivity|].
    destruct (forEach f l2) as [e|r2]; simpl; [reflexivity|].
    now rewrite app_assoc.
Qed.

Lemma forEach_flat_map {A B : Type} (f : B -> result (list report))
    (g : A -> list B) (l : list A) :
  forEach f (flat_map g l) = forEach (fun x => forEach f (g x)) l.
Proof.
  induction l as [|x l IH]; simpl; [reflexivity|].
  now rewrite forEach_app, IH.
Qed.

Lemma forEach_ext {A : Type} (f g : A -> result (list report)) (l : list A) :
  Forall (fun x => f x = g x) l -> forEach f l = forEach g l.
Proof.
  induction 1 as [|x l Hx _ IH]; simpl; [reflexivity|].
  now rewrite Hx, IH.
Qed.

Lemma forEach_silent {A : Type} (f : A -> result (list report)) (l : list A) :
  Forall (fun x => f x = inr []) l -> forEach f l = inr [].
Proof.
  induction 1 as [|x l Hx _ IH]; simpl; [reflexivity|].
  now rewrite Hx, IH.
Qed.

Section Walker.

Variable extract : jsval -> list (string * Z).
Variable parse : string -> nat -> string.
Variable map : jsmap.

#[local] Abbreviation reportValue := (reportValue extract parse map).
#[local] Abbreviation parseRoot := (parseRoot extract parse map).
#[local] Abbreviation parseArg := (parseArg extract parse map).
#[local] Abbreviation reportLeaves := (reportLeaves extract parse map).

Lemma reportLeaves_one (l : jsval * Z) :
  reportLeaves [l] = reportValue (fst l) (snd l).
Proof.
  unfold reportLeaves. simpl.
  destruct (reportValue (fst l) (snd l)); simpl; [reflexivity|].
  now rewrite app_nil_r.
Qed.

Lemma reportLeaves_app (l1 l2 : list (jsval * Z)) :
  reportLeaves (l1 ++ l2)
  = bind (reportLeaves l1) (fun r1 =>
      bind (reportLeaves l2) (fun r2 => inr (r1 ++ r2))).
Proof. apply forEach_app. Qed.

(** The walker reports what the matcher finds in its leaves. *)
Lemma parseArg_leaves (node : rootNode) (arg : expr) :
  parseArg node arg = reportLeaves (leavesOf node arg).
Proof.
  assert (Hroot : parseRoot node = reportLeaves [rootLeaf node])
    by (now rewrite reportLeaves_one).
  induction arg as [name | es qs IHes IHqs | t c a IHc IHa | l r IHr
                   | els IH | props IH | k v IHk | v r | raw r | ty kids]
    using expr_nested_ind; simpl.
  - reflexivity.
  - rewrite reportLeaves_app. unfold reportLeaves.
    rewrite !forEach_flat_map.
    rewrite (forEach_ext _ _ es IHes), (forEach_ext _ _ qs IHqs).
    reflexivity.
  - now rewrite reportLeaves_app, IHc, IHa.
  - exact IHr.
  - unfold reportLeaves. rewrite forEach_flat_map.
    apply forEach_ext. eapply Forall_impl; [|exact IH].
    intros [e|] He; simpl in *; [exact He | exact Hroot].
  - unfold reportLeaves. rewrite forEach_flat_map.
    apply forEach_ext. eapply Forall_impl; [|exact IH].
    intros prop Hprop.
    destruct prop; simpl in *; try exact Hroot.
    destruct Hprop as [Hk Hv].
    destruct (callee_name node) as [n|], (key_type node) as [kt|]; simpl;
      repeat match goal with
             | |- context [if ?b then _ else _] => destruct b; simpl
             end; assumption.
  - exact IHk.
  - exact (eq_sym (reportLeaves_one (v, (fst r + 1)%Z))).
  - destruct (String.eqb raw ""); [reflexivity|].
    exact (eq_sym (reportLeaves_one (JStr raw, fst r))).
  - exact (eq_sym (reportLeaves_one (JNull, 0%Z))).
Qed.

End Walker.

End WalkerFacts.

(* ================================================================== *)
(** * The shapes of the walker *)
(* ================================================================== *)

Module ShapeFacts.

Import Theme Rule Spec Host Samples.




(** C7: of a conditional expression the walker enters the consequent and
    then the alternate, whatever the test is; the test is no leaf.  For
    [test ? "a-[1px]" : "b-[2px]"] both strings are reported, and a class
    name in the test is not. *)
Theorem conditional_visits_both_branches
    (extract : jsval -> list (string * Z)) (parse : string -> nat -> string)
    (map : jsmap) (node : rootNode) (test consequent alternate : expr) :
  parseArg extract parse map node
    (ConditionalExpression test consequent alternate)
  = (r1 <- parseArg extract parse map node consequent ;;
     r2 <- parseArg extract parse map node alternate ;;
     inr (r1 ++ r2))
  /\ leavesOf node (ConditionalExpression test consequent alternate)
     = leavesOf node consequent ++ leavesOf node alternate
  /\ (let e := ConditionalExpression (quoted "c-[3px]" 0)
                 (quoted "a-[1px]" 12) (quoted "b-[2px]" 24) in
      leavesOf callRoot e = [(JStr "a-[1px]", 13%Z); (JStr "b-[2px]", 25%Z)]
      /\ lint pxIndex callRoot (Some e)
         = inr [reportOf "a-[1px]" "1px" "one" "a-one" 13;
                reportOf "b-[2px]" "2px" "two" "b-two" 25]).
Proof.
  split; [reflexivity|]. split; [reflexivity|].
  split; reflexivity.
Qed.

(** C8: of a logical expression the walker enters the right-hand operand
    only; the left-hand operand gives no leaf and no report.  For
    ["a-[1px]" && "b-[2px]"] the second string alone is reported. *)
Theorem logical_visits_right_operand_only
    (extract : jsval -> list (string * Z)) (parse : string -> nat -> string)
    (map : jsmap) (node : rootNode) (lhs rhs : expr) :
  parseArg extract parse map node (LogicalExpression lhs rhs)
  = parseArg extract parse map node rhs
  /\ leavesOf node (LogicalExpression lhs rhs) = leavesOf node rhs
  /\ (let e := LogicalExpression (quoted "a-[1px]" 0) (quoted "b-[2px]" 13) in
      leavesOf callRoot e = [(JStr "b-[2px]", 14%Z)]
      /\ lint pxIndex callRoot (Some e)
         = inr [reportOf "b-[2px]" "2px" "two" "b-two" 14]).
Proof.
  split; [reflexivity|]. split; [reflexivity|].
  split; reflexivity.
Qed.

End ShapeFacts.

(* ================================================================== *)
(** * Properties of the matcher *)
(* ================================================================== *)

Module MatcherFacts.

Import Theme Rule Spec Host.

Section Matcher.

Variable extract : jsval -> list (string * Z).
Variable parse : string -> nat -> string.
Variable map : jsmap.

(** A class name gives at most one report; its range starts at the
    class name and is as long as the parsed name, and its value is a key
    of the index. *)
Lemma checkClass_inv (start : Z) (idx : nat) (cls : string) (offset : Z)
    (rs : list report) :
  checkClass parse map start idx cls offset = inr rs ->
  rs = []
  \/ exists r matched,
       rs = [r]
       /\ arbitraryValueMatch (parse cls idx) = Some (matched, arbitraryValue r)
       /\ map_get map (JStr (arbitraryValue r)) = Some (definedToken r)
       /\ range_of parse start idx (cls, offset) r.
Proof.
  unfold checkClass.
  destruct (arbitraryValueMatch (parse cls idx)) as [[matched key]|] eqn:Hm;
    [|intros [= <-]; now left].
  destruct (map_get map (JStr key)) as [[|first rest]|] eqn:Hget;
    [discriminate | | intros [= <-]; now left].
  intros [= <-]. right. eexists; exists matched.
  split; [reflexivity|]. simpl. repeat split; assumption.
Qed.


End Matcher.



(** ** The replacement text *)

Lemma append_assoc (a b c : string) : ((a ++ b) ++ c = a ++ (b ++ c))%string.
Proof. induction a as [|x a IH]; simpl; [reflexivity|now rewrite IH]. Qed.

Lemma take_append (a b : string) : JsString.take (String.length a) (a ++ b) = a.
Proof. induction a as [|x a IH]; simpl; [now destruct b|now rewrite IH]. Qed.

Lemma drop_append (a b : string) : JsString.drop (String.length a) (a ++ b) = b.
Proof. induction a as [|x a IH]; simpl; [reflexivity|exact IH]. Qed.

Lemma drop_append_plus (a b : string) (n : nat) :
  JsString.drop (String.length a + n) (a ++ b) = JsString.drop n b.
Proof. induction a as [|x a IH]; simpl; [reflexivity|exact IH]. Qed.

Lemma startsWith_append (a b : string) : JsString.startsWith (a ++ b) a = true.
Proof.
  induction a as [|x a IH]; simpl; [now destruct b|].
  now rewrite Ascii.eqb_refl, IH.
Qed.

Lemma startsWith_prefix (s p t : string) :
  s = (p ++ t)%string -> JsString.startsWith s p = true.
Proof. intros ->. apply startsWith_append. Qed.

Lemma startsWith_split (s p : string) :
  JsString.startsWith s p = true -> exists t, s = (p ++ t)%string.
Proof.
  revert s. induction p as [|c p IH]; intros s; simpl.
  - intros _. now exists s.
  - destruct s as [|d s]; [discriminate|].
    intros H. apply andb_prop in H. destruct H as [Hc Hp].
    apply Ascii.eqb_eq in Hc. subst d.
    destruct (IH _ Hp) as [t ->]. now exists t.
Qed.

(** [last_close] stops at a closing bracket, over code units of one
    line. *)
Lemma last_close_spec (s : string) :
  forall k, last_close s = Some k ->
    s = (JsString.take k s ++ String "]" (JsString.drop (S k) s))%string
    /\ one_line (JsString.take k s) = true.
Proof.
  induction s as [|c s IH]; simpl; intros k; [discriminate|].
  destruct (line_terminator c) eqn:Hlt; [discriminate|].
  destruct (last_close s) as [k'|].
  - intros [= <-]. destruct (IH k' eq_refl) as [Hs Hone]. split.
    + simpl. f_equal. exact Hs.
    + simpl. now rewrite Hlt, Hone.
  - destruct (Ascii.eqb c "]") eqn:Hc; [|discriminate].
    intros [= <-]. apply Ascii.eqb_eq in Hc. subst c.
    split; [|reflexivity]. simpl. now destruct s.
Qed.

(** A closing bracket on the line is found. *)
Lemma last_close_found (key t : string) :
  one_line key = true -> last_close (key ++ String "]" t) <> None.
Proof.
  induction key as [|c key IH]; simpl.
  - intros _. destruct (last_close t); discriminate.
  - intros H. apply andb_prop in H. destruct H as [Hc Hkey].
    apply negb_true_iff in Hc. rewrite Hc.
    specialize (IH Hkey).
    destruct (last_close (key ++ String "]" t)); [discriminate|contradiction].
Qed.

(** The match of the rule's expression: the text in brackets, and where
    [indexOf] finds it again. *)
Lemma arbitraryValueMatch_spec (name matched key : string) :
  arbitraryValueMatch name = Some (matched, key) ->
  matched = String "[" (key ++ "]")
  /\ one_line key = true
  /\ exists before after,
       name = (before ++ matched ++ after)%string
       /\ JsString.indexOf name matched = Some (String.length before).
Proof.
  induction name as [|c name IH]; simpl; [discriminate|].
  destruct (Ascii.eqb c "[") eqn:Hc.
  - apply Ascii.eqb_eq in Hc. subst c.
    destruct (last_close name) as [k|] eqn:Hk.
    + intros [= <- <-]. destruct (last_close_spec _ _ Hk) as [Hname Hone].
      split; [reflexivity|]. split; [exact Hone|].
      assert (Hwhole : name
                = ((JsString.take k name ++ "]")
                   ++ JsString.drop (S k) name)%string)
        by (rewrite append_assoc; exact Hname).
      exists "", (JsString.drop (S k) name).
      set (after := JsString.drop (S k) name) in *.
      split.
      * cbn [append]. f_equal. exact Hwhole.
      * cbn [JsString.indexOf JsString.startsWith String.length].
        rewrite Ascii.eqb_refl, (startsWith_prefix _ _ _ Hwhole).
        reflexivity.
    + intros Hrest. destruct (IH Hrest) as [Hm [Hone [before [after [Hn Hi]]]]].
      split; [exact Hm|]. split; [exact Hone|].
      exists (String "[" before), after. split; [simpl; now rewrite <- Hn|].
      subst matched. cbn [JsString.indexOf JsString.startsWith].
      rewrite Hi, Ascii.eqb_refl. cbn [andb].
      destruct (JsString.startsWith name (key ++ "]")) eqn:Hstart;
        [|reflexivity].
      destruct (startsWith_split _ _ Hstart) as [t Ht].
      rewrite append_assoc in Ht. simpl in Ht.
      exfalso. apply (last_close_found key t Hone). now rewrite <- Ht.
  - intros Hrest. destruct (IH Hrest) as [Hm [Hone [before [after [Hn Hi]]]]].
    split; [exact Hm|]. split; [exact Hone|].
    exists (String c before), after. split; [simpl; now rewrite <- Hn|].
    subst matched. cbn [JsString.indexOf JsString.startsWith].
    rewrite Hi, Ascii.eqb_sym, Hc. reflexivity.
Qed.

Lemma getSubstitution_plain (matched before after repl : string) :
  JsString.dollar_free repl = true ->
  JsString.getSubstitution matched before after repl = repl.
Proof.
  induction repl as [|c repl IH]; simpl; [reflexivity|].
  intros H. apply andb_prop in H. destruct H as [Hc Hrest].
  apply negb_true_iff in Hc. rewrite Hc, (IH Hrest). reflexivity.
Qed.

(** Replacing the match by a text without dollar sign puts the text in
    the place of the brackets. *)
Lemma replace_match_plain (before matched after repl : string) :
  JsString.indexOf (before ++ matched ++ after) matched
  = Some (String.length before) ->
  JsString.dollar_free repl = true ->
  JsString.replace (before ++ matched ++ after) matched repl
  = (before ++ repl ++ after)%string.
Proof.
  intros Hi Hplain. unfold JsString.replace. rewrite Hi.
  rewrite take_append, drop_append_plus, drop_append.
  now rewrite getSubstitution_plain.
Qed.

(** The replacement text of a report whose first path has no dollar
    sign: the name with the brackets and their content replaced by the path,
    a final [-DEFAULT] dropped. *)
Lemma fixed_text_without_dollar (parse : string -> nat -> string)
    (map : jsmap) (start : Z) (idx : nat) (cls : string) (offset : Z)
    (r : report) :
  checkClass parse map start idx cls offset = inr [r] ->
  exists first rest before after,
    definedToken r = first :: rest
    /\ map_get map (JStr (arbitraryValue r)) = Some (first :: rest)
    /\ parse cls idx
       = (before ++ String "[" (arbitraryValue r ++ "]") ++ after)%string
    /\ (JsString.dollar_free (canonical first) = true ->
        fixed (fixInfo r) = (before ++ canonical first ++ after)%string).
Proof.
  unfold checkClass.
  destruct (arbitraryValueMatch (parse cls idx)) as [[matched key]|] eqn:Hm;
    [|discriminate].
  destruct (map_get map (JStr key)) as [[|first rest]|] eqn:Hget;
    try discriminate.
  intros [= <-]. simpl.
  destruct (arbitraryValueMatch_spec _ _ _ Hm)
    as [-> [_ [before [after [Hname Hi]]]]].
  exists first, rest, before, after.
  split; [reflexivity|]. split; [exact Hget|]. split; [exact Hname|].
  intros Hplain. rewrite Hname in Hi |- *.
  now apply replace_match_plain.
Qed.

End MatcherFacts.

(* ================================================================== *)
(** * The theme index and the rule *)
(* ================================================================== *)

Module IndexFacts.

Import Theme Rule Spec Host ThemeFacts WalkerFacts.

(** ** An empty index *)

Lemma checkClasses_empty_index (parse : string -> nat -> string) (start : Z)
    (l : list (string * Z)) :
  forall idx, checkClasses parse [] start idx l = inr [].
Proof.
  induction l as [|[cls offset] l IH]; intros idx; simpl; [reflexivity|].
  rewrite IH. unfold checkClass.
  destruct (arbitraryValueMatch (parse cls idx)) as [[matched key]|];
    reflexivity.
Qed.

Lemma parseArg_empty_index (extract : jsval -> list (string * Z))
    (parse : string -> nat -> string) (node : rootNode) (arg : expr) :
  parseArg extract parse [] node arg = inr [].
Proof.
  assert (Hvalue : forall v start, reportValue extract parse [] v start = inr [])
    by (intros; apply checkClasses_empty_index).
  induction arg as [name | es qs IHes IHqs | t c a IHc IHa | l r IHr
                   | els IH | props IH | k v IHk | v r | raw r | ty kids]
    using expr_nested_ind; simpl.
  - reflexivity.
  - now rewrite (forEach_silent _ es IHes), (forEach_silent _ qs IHqs).
  - now rewrite IHc, IHa.
  - exact IHr.
  - apply forEach_silent. eapply Forall_impl; [|exact IH].
    intros [e|] He; [exact He | apply Hvalue].
  - apply forEach_silent. eapply Forall_impl; [|exact IH].
    intros prop Hprop. destruct prop; try apply Hvalue.
    destruct Hprop as [Hk Hv].
    now destruct (_ || _).
  - exact IHk.
  - apply Hvalue.
  - destruct (String.eqb raw ""); [reflexivity | apply Hvalue].
  - apply Hvalue.
Qed.

(** ** A built index *)

Lemma forEach_returns {A : Type} (f : A -> result (list report)) (l : list A) :
  Forall (fun x => exists rs, f x = inr rs) l -> exists rs, forEach f l = inr rs.
Proof.
  induction 1 as [|x l [r Hx] _ [rs IH]]; simpl.
  - now exists [].
  - rewrite Hx, IH. simpl. now eexists.
Qed.

Lemma checkClasses_returns (parse : string -> nat -> string)
    (cs : list (jsval * list string)) (start : Z) (l : list (string * Z)) :
  forall idx, exists rs, checkClasses parse (buildIndex cs) start idx l = inr rs.
Proof.
  induction l as [|[cls offset] l IH]; intros idx; simpl; [now exists []|].
  destruct (IH (S idx)) as [rs ->].
  unfold checkClass.
  destruct (arbitraryValueMatch (parse cls idx)) as [[matched key]|];
    [|simpl; now eexists].
  pose proof (buildIndex_nonempty cs (JStr key)) as Hfull.
  destruct (map_get (buildIndex cs) (JStr key)) as [[|first rest]|];
    [contradiction | |]; simpl; now eexists.
Qed.

(** With an index built by [create], the rule returns on every node: the
    entry of a key is never an empty array. *)
Lemma built_index_never_throws (extract : jsval -> list (string * Z))
    (parse : string -> nat -> string) (cs : list (jsval * list string))
    (node : rootNode) (arg : option expr) :
  exists rs,
    parseForArbitraryValues extract parse (buildIndex cs) node arg = inr rs.
Proof.
  assert (Hvalue : forall v start,
             exists rs, reportValue extract parse (buildIndex cs) v start = inr rs)
    by (intros; apply checkClasses_returns).
  destruct arg as [arg|]; simpl; [|apply Hvalue].
  induction arg as [name | es qs IHes IHqs | t c a IHc IHa | l r IHr
                   | els IH | props IH | k v IHk | v r | raw r | ty kids]
    using expr_nested_ind; simpl.
  - now exists [].
  - destruct (forEach_returns _ es IHes) as [r1 ->].
    destruct (forEach_returns _ qs IHqs) as [r2 ->]. simpl. now eexists.
  - destruct IHc as [r1 ->]. destruct IHa as [r2 ->]. simpl. now eexists.
  - exact IHr.
  - apply forEach_returns. eapply Forall_impl; [|exact IH].
    intros [e|] He; [exact He | apply Hvalue].
  - apply forEach_returns. eapply Forall_impl; [|exact IH].
    intros prop Hprop. destruct prop; try apply Hvalue.
    destruct Hprop as [Hk Hv].
    now destruct (_ || _).
  - exact IHk.
  - apply Hvalue.
  - destruct (String.eqb raw ""); [now exists [] | apply Hvalue].
  - apply Hvalue.
Qed.

(** C6, as the code has it: the colors of a resolved theme that are an
    empty mapping give an empty index, with which no node is ever
    reported and nothing throws.  A theme that is missing or has no colors
    makes the construction of the index throw instead. *)
Theorem empty_colors_give_empty_index
    (mergedConfig theme : jsval) (id : nat) (h : heap) :
  getProp mergedConfig "theme" = inr theme ->
  getProp theme "colors" = inr (JObj id []) ->
  create_index mergedConfig h = inr (length h, h ++ [[]])
  /\ load (h ++ [[]]) (length h) = Some []
  /\ forall extract parse node arg,
       parseForArbitraryValues extract parse [] node arg = inr [].
Proof.
  intros Htheme Hcolors. split; [|split].
  - now rewrite (create_index_spec _ _ _ _ Htheme Hcolors).
  - apply load_last.
  - intros extract parse node [arg|]; simpl.
    + apply parseArg_empty_index.
    + apply checkClasses_empty_index.
Qed.

Lemma empty_colors_give_empty_index_witness :
  let cfg := JObj 0 [("theme", JObj 1 [("colors", JObj 2 [])])] in
  create_index cfg [] = inr (0, [[]])
  /\ load [[]] 0 = Some []
  /\ forall extract parse node arg,
       parseForArbitraryValues extract parse [] node arg = inr [].
Proof.
  exact (empty_colors_give_empty_index
           (JObj 0 [("theme", JObj 1 [("colors", JObj 2 [])])])
           (JObj 1 [("colors", JObj 2 [])]) 2 [] eq_refl eq_refl).
Defined.

(** C6 fails as stated: a resolved configuration without theme, and one
    whose theme is empty, make [create] throw, as [Object.keys(undefined)]
    does. *)
Lemma missing_or_empty_theme_throws :
  create_index (JObj 0 []) [] = inl TypeError
  /\ create_index (JObj 0 [("theme", JObj 1 [])]) [] = inl TypeError
  /\ traverseObject jsmap collector JUndefined [] [] = inl TypeError.
Proof. repeat split; reflexivity. Qed.

(** C9: building the index again, on the heap the first construction
    left or on any other, allocates a new map and fills it with the same
    entries, the first map staying as it was. *)
Theorem index_construction_is_repeatable
    (mergedConfig : jsval) (h : heap) (a1 : addr) (h1 : heap) :
  create_index mergedConfig h = inr (a1, h1) ->
  exists m a2 h2,
    load h1 a1 = Some m
    /\ create_index mergedConfig h1 = inr (a2, h2)
    /\ a2 <> a1
    /\ load h2 a2 = Some m
    /\ load h2 a1 = Some m
    /\ forall h', exists a' h'',
         create_index mergedConfig h' = inr (a', h'') /\ load h'' a' = Some m.
Proof.
  intros Hfirst.
  destruct (create_index_inv _ _ _ _ Hfirst) as [theme [colors [Ht [Hc Hn]]]].
  pose proof (fun h0 => create_index_spec _ _ _ h0 Ht Hc) as Hspec.
  rewrite Hn in Hspec. rewrite Hspec in Hfirst.
  injection Hfirst as <- <-.
  set (m := buildIndex (calls colors [])) in *.
  exists m, (length (h ++ [m])), ((h ++ [m]) ++ [m]).
  split; [apply load_last|].
  split; [apply Hspec|].
  split; [rewrite length_app; simpl; lia|].
  split; [apply load_last|].
  split.
  - rewrite load_old; [apply load_last|]. rewrite length_app. simpl. lia.
  - intros h'. exists (length h'), (h' ++ [m]).
    split; [apply Hspec | apply load_last].
Qed.

Lemma index_construction_is_repeatable_witness :
  exists m a2 h2,
    load [testIndex] 0 = Some m
    /\ create_index testConfig [testIndex] = inr (a2, h2)
    /\ a2 <> 0
    /\ load h2 a2 = Some m
    /\ load h2 0 = Some m
    /\ forall h', exists a' h'',
         create_index testConfig h' = inr (a', h'') /\ load h'' a' = Some m.
Proof.
  exact (index_construction_is_repeatable testConfig [] 0 [testIndex] eq_refl).
Defined.

(** An array and [null] are leaves, a nested mapping is entered, and
    a value met twice keeps both paths. *)
Example arrays_and_null_are_leaves :
  let colors :=
    JObj 0 [("a", JArr 1 [JStr "#fff"]);
            ("b", JNull);
            ("c", JObj 2 [("d", JStr "#000"); ("e", JNull)])] in
  calls colors [] = [(JArr 1 [JStr "#fff"], ["a"]); (JNull, ["b"]);
                     (JStr "#000", ["c"; "d"]); (JNull, ["c"; "e"])]
  /\ traverseObject jsmap collector colors [] []
     = inr [(JArr 1 [JStr "#fff"], ["a"]); (JNull, ["b"; "c-e"]);
            (JStr "#000", ["c-d"])].
Proof. split; reflexivity. Qed.

(** C4: the collector is called on the leaves of the colors, the values
    that are no plain mapping, arrays and [null] among them; the entry of a
    value holds the dash-joined paths of its occurrences in the order of the
    traversal, and the replacement text is made of the first one. *)
Theorem theme_index_keeps_paths_in_discovery_order
    (mergedConfig theme : jsval) (id : nat) (props : list (string * jsval))
    (h : heap) :
  getProp mergedConfig "theme" = inr theme ->
  getProp theme "colors" = inr (JObj id props) ->
  exists a h' m,
    create_index mergedConfig h = inr (a, h')
    /\ load h' a = Some m
    /\ m = buildIndex (calls (JObj id props) [])
    /\ (forall v path,
          In (v, path) (calls (JObj id props) [])
          <-> leaf_at (JObj id props) path v)
    /\ (forall v, map_get m v = entry (paths_of v (calls (JObj id props) [])))
    /\ (forall parse start idx cls offset matched key first rest,
          arbitraryValueMatch (parse cls idx) = Some (matched, key) ->
          paths_of (JStr key) (calls (JObj id props) []) = first :: rest ->
          checkClass parse m start idx cls offset
          = inr [{| arbitraryValue := key;
                    definedToken := first :: rest;
                    fixInfo :=
                      {| fix_start := start + offset;
                         fix_end := start + offset
                                    + Z.of_nat (String.length (parse cls idx));
                         fixed := JsString.replace (parse cls idx) matched
                                    (canonical first) |} |}]).
Proof.
  intros Htheme Hcolors.
  exists (length h), (h ++ [buildIndex (calls (JObj id props) [])]),
    (buildIndex (calls (JObj id props) [])).
  split; [now rewrite (create_index_spec _ _ _ _ Htheme Hcolors)|].
  split; [apply load_last|].
  split; [reflexivity|].
  split; [intros v path; apply calls_are_leaves|].
  split; [intros v; apply map_get_buildIndex|].
  intros parse start idx cls offset matched key first rest Hmatch Hpaths.
  unfold checkClass. rewrite Hmatch, map_get_buildIndex, Hpaths.
  reflexivity.
Qed.

Lemma theme_index_keeps_paths_in_discovery_order_witness :
  exists a h' m,
    create_index testConfig [] = inr (a, h')
    /\ load h' a = Some m
    /\ m = buildIndex (calls testColors [])
    /\ (forall v path,
          In (v, path) (calls testColors []) <-> leaf_at testColors path v)
    /\ (forall v, map_get m v = entry (paths_of v (calls testColors [])))
    /\ (forall parse start idx cls offset matched key first rest,
          arbitraryValueMatch (parse cls idx) = Some (matched, key) ->
          paths_of (JStr key) (calls testColors []) = first :: rest ->
          checkClass parse m start idx cls offset
          = inr [{| arbitraryValue := key;
                    definedToken := first :: rest;
                    fixInfo :=
                      {| fix_start := start + offset;
                         fix_end := start + offset
                                    + Z.of_nat (String.length (parse cls idx));
                         fixed := JsString.replace (parse cls idx) matched
                                    (canonical first) |} |}]).
Proof.
  exact (theme_index_keeps_paths_in_discovery_order testConfig
           (JObj 1 [("colors", testColors)]) 2 _ [] eq_refl eq_refl).
Defined.

End IndexFacts.

(* ================================================================== *)
(** * Properties of [splitWithIndex] *)
(* ================================================================== *)

Module SplitFacts.

Import Split SplitSpec.

(** ** Substrings *)

Lemma length_take (n : nat) (s : string) :
  String.length (JsString.take n s) = Nat.min n (String.length s).
Proof.
  revert s; induction n as [|n IH]; intros [|c s]; simpl; auto.
Qed.

Lemma take_all (s : string) : JsString.take (String.length s) s = s.
Proof. induction s as [|c s IH]; simpl; [reflexivity|now rewrite IH]. Qed.

Lemma substring_within (s : string) (a b : nat) :
  a <= b -> b <= String.length s ->
  JsString.substring s a b = JsString.take (b - a) (JsString.drop a s).
Proof.
  intros Hab Hb. unfold JsString.substring.
  rewrite (Nat.min_l a), (Nat.min_l b), (Nat.min_l a b), (Nat.max_r a b);
    (reflexivity || lia).
Qed.

Lemma length_substring (s : string) (a b : nat) :
  a <= b -> b <= String.length s ->
  String.length (JsString.substring s a b) = b - a.
Proof.
  intros Hab Hb. rewrite substring_within, length_take, Host.length_drop; lia.
Qed.

(** A substring stands in the string at its start. *)
Lemma substring_located (s : string) (a b : nat) :
  a <= b -> b <= String.length s ->
  located s {| value := Some (JsString.substring s a b); index := a |}.
Proof.
  intros Hab Hb. eexists. split; [reflexivity|]. simpl.
  rewrite length_substring by assumption.
  now replace (a + (b - a)) with b by lia.
Qed.

Lemma empty_located (s : string) :
  located s {| value := Some ""; index := 0 |}.
Proof. exists "". split; reflexivity. Qed.

Lemma whole_located (s : string) :
  located s {| value := Some s; index := 0 |}.
Proof.
  exists s. split; [reflexivity|]. simpl.
  rewrite substring_within by lia. rewrite Nat.sub_0_r. apply take_all.
Qed.

(** ** The matches *)

Section Matches.

Variable re : regex.
Variable str : string.

Lemma builtinExec_spec (n : nat) :
  forall i m,
    builtinExec re str n i = Some m ->
    i <= m_index m
    /\ m_index m + String.length (m_whole m) <= String.length str
    /\ run re str (m_index m) = Some (String.length (m_whole m), m_groups m).
Proof.
  induction n as [|n IH]; intros i m; simpl;
    destruct (run re str i) as [[len caps]|] eqn:Hrun.
  1, 3: intros [= <-]; simpl;
        pose proof (run_bound re _ _ _ _ Hrun) as Hb;
        rewrite length_substring by lia;
        replace (i + len - i) with len by lia;
        repeat split; (lia || assumption).
  - destruct (sticky re); discriminate.
  - destruct (sticky re); [discriminate|].
    intros Hm. destruct (IH _ _ Hm) as [Hi Hrest]. split; [lia|exact Hrest].
Qed.

Lemma builtinExec_none (n : nat) :
  forall i,
    (forall j, i <= j <= i + n -> run re str j = None) ->
    builtinExec re str n i = None.
Proof.
  induction n as [|n IH]; intros i Hnone; simpl;
    rewrite (Hnone i) by lia; destruct (sticky re); try reflexivity.
  apply IH. intros j Hj. apply Hnone. lia.
Qed.

Lemma matchAll_from_placed (fuel : nat) :
  forall lastIndex, placed re str lastIndex (matchAll_from re str fuel lastIndex).
Proof.
  induction fuel as [|fuel IH]; intros lastIndex; simpl; [exact I|].
  destruct (String.length str <? lastIndex)%nat; [exact I|].
  destruct (builtinExec re str (String.length str - lastIndex) lastIndex)
    as [m|] eqn:Hexec; [|exact I].
  destruct (builtinExec_spec _ _ _ Hexec) as [Hi [Hb Hrun]].
  simpl. repeat split; try assumption. apply IH.
Qed.

(** [lastIndex] grows with every match. *)
Lemma resume_grows (n i : nat) (m : regexMatch) :
  builtinExec re str n i = Some m -> i < resume m.
Proof.
  intros Hexec. destruct (builtinExec_spec _ _ _ Hexec) as [Hi _].
  unfold resume. destruct (Nat.eqb_spec (String.length (m_whole m)) 0); lia.
Qed.

(** More fuel than the positions left changes nothing. *)
Lemma matchAll_from_fuel (fuel : nat) :
  forall lastIndex,
    String.length str + 2 <= fuel + lastIndex ->
    matchAll_from re str (S fuel) lastIndex
    = matchAll_from re str fuel lastIndex.
Proof.
  induction fuel as [|fuel IH]; intros lastIndex Hfuel.
  - simpl. destruct (Nat.ltb_spec (String.length str) lastIndex);
      [reflexivity|lia].
  - change (matchAll_from re str (S (S fuel)) lastIndex)
      with (if (String.length str <? lastIndex)%nat then []
            else match builtinExec re str (String.length str - lastIndex)
                         lastIndex with
                 | None => []
                 | Some m => m :: matchAll_from re str (S fuel) (resume m)
                 end).
    change (matchAll_from re str (S fuel) lastIndex)
      with (if (String.length str <? lastIndex)%nat then []
            else match builtinExec re str (String.length str - lastIndex)
                         lastIndex with
                 | None => []
                 | Some m => m :: matchAll_from re str fuel (resume m)
                 end).
    destruct (String.length str <? lastIndex)%nat; [reflexivity|].
    destruct (builtinExec re str (String.length str - lastIndex) lastIndex)
      as [m|] eqn:Hexec; [|reflexivity].
    rewrite IH; [reflexivity|].
    pose proof (resume_grows _ _ _ Hexec). lia.
Qed.

(** The iteration of [matchAll] ends within its fuel: every larger
    amount gives the same matches. *)
Lemma matchAll_enough_fuel (extra : nat) :
  matchAll_from re str (String.length str + 2 + extra) 0 = matchAll re str.
Proof.
  induction extra as [|extra IH]; [now rewrite Nat.add_0_r|].
  rewrite Nat.add_succ_r, matchAll_from_fuel by lia. exact IH.
Qed.

Lemma matchAll_placed : placed re str 0 (matchAll re str).
Proof. apply matchAll_from_placed. Qed.

Lemma matchAll_no_match : no_match re str -> matchAll re str = [].
Proof.
  intros Hnone. unfold matchAll. rewrite Nat.add_comm. simpl.
  rewrite builtinExec_none; [reflexivity|].
  intros j Hj. apply Hnone. lia.
Qed.

(** ** The loop *)

Lemma fold_step (ms : list regexMatch) :
  forall result lastIndex,
    fold_left (step str) ms (result, lastIndex)
    = (result ++ gaps str lastIndex ms, last_end lastIndex ms).
Proof.
  induction ms as [|m ms IH]; intros result lastIndex; simpl.
  - now rewrite app_nil_r.
  - rewrite IH. f_equal.
    destruct (negb (m_index m =? lastIndex)%nat); simpl;
      now rewrite <- ?app_assoc.
Qed.

Hypothesis Hgroups : no_capture_groups re.

Lemma placed_no_groups (lo : nat) (m : regexMatch) (ms : list regexMatch) :
  placed re str lo (m :: ms) -> m_groups m = [].
Proof.
  intros [_ [_ [Hrun _]]]. apply run_groups in Hrun.
  rewrite Hgroups in Hrun. now destruct (m_groups m).
Qed.

(** The pieces pushed by the loop stand in [str] at their indices, which
    increase from [lastIndex] on and stay below the final [lastIndex]. *)
Lemma gaps_spec (ms : list regexMatch) :
  forall lo lo',
    lo <= lo' -> placed re str lo' ms ->
    Forall (located str) (gaps str lo ms)
    /\ Forall (fun i => lo <= i) (indices (gaps str lo ms))
    /\ StronglySorted lt (indices (gaps str lo ms))
    /\ Forall (fun i => i < last_end lo ms) (indices (gaps str lo ms))
    /\ lo <= last_end lo ms
    /\ (lo <= String.length str -> last_end lo ms <= String.length str).
Proof.
  induction ms as [|m ms IH]; intros lo lo' Hlo Hplaced.
  - simpl. repeat split; (constructor || lia).
  - pose proof (placed_no_groups _ _ _ Hplaced) as Hnil.
    destruct Hplaced as [Hi [Hb [_ Hrest]]].
    assert (Hresume : m_index m + String.length (m_whole m) <= resume m)
      by (unfold resume; lia).
    destruct (IH _ _ Hresume Hrest) as [H1 [H2 [H3 [H4 [H5 H6]]]]].
    simpl. rewrite Hnil. simpl.
    assert (Hall : forall lo0,
               lo0 <= m_index m ->
               Forall (fun i => lo0 <= i)
                 (indices (gaps str (m_index m + String.length (m_whole m)) ms)))
      by (intros lo0 Hlo0; eapply Forall_impl; [|exact H2];
          simpl; intros; lia).
    destruct (Nat.eqb_spec (m_index m) lo) as [Heq|Hne]; simpl;
      (split; [|split; [|split; [|split; [|split]]]]).
    + exact H1.
    + apply Hall. lia.
    + exact H3.
    + exact H4.
    + lia.
    + intros _. apply H6. lia.
    + constructor; [|exact H1]. apply substring_located; lia.
    + constructor; [lia|]. apply Hall. lia.
    + constructor; [exact H3|].
      eapply Forall_impl; [|exact H2]. simpl. intros; lia.
    + constructor; [lia|exact H4].
    + lia.
    + intros _. apply H6. lia.
Qed.

End Matches.

(** ** Increasing sequences *)

Lemma increasing_snoc (l : list nat) (e : nat) :
  StronglySorted lt l -> Forall (fun i => i < e) l ->
  StronglySorted lt (l ++ [e]).
Proof.
  induction 1 as [|i l Hsorted IH Hhead]; intros Hbelow; simpl.
  - repeat constructor.
  - inversion Hbelow as [|? ? Hi Hl]; subst.
    constructor; [now apply IH|].
    apply Forall_app. split; [exact Hhead|]. now repeat constructor.
Qed.

Lemma increasing_weaken (l : list nat) :
  StronglySorted lt l -> StronglySorted le l.
Proof.
  induction 1 as [|i l Hsorted IH Hhead]; constructor; [exact IH|].
  eapply Forall_impl; [|exact Hhead]. simpl. intros; lia.
Qed.

(** C10, as the code has it: for a separator without capture group,
    every element of the result holds the text that stands in [str] at its
    index; the indices never decrease, and they increase strictly unless
    the separator matches the empty string at the start of [str]; a
    separator that matches nowhere gives [str] at index 0 alone. *)
Theorem splitWithIndex_pieces (str : string) (separator : regex) :
  no_capture_groups separator ->
  Forall (located str) (splitWithIndex str separator)
  /\ StronglySorted le (indices (splitWithIndex str separator))
  /\ (~ empty_at_start separator str ->
      StronglySorted lt (indices (splitWithIndex str separator)))
  /\ (no_match separator str ->
      splitWithIndex str separator = [{| value := Some str; index := 0 |}]).
Proof.
  intros Hgroups.
  pose proof (matchAll_placed separator str) as Hplaced.
  pose proof (matchAll_no_match separator str) as Hnone.
  unfold splitWithIndex.
  destruct (matchAll separator str) as [|m0 ms].
  { split; [|split; [|split]].
    - constructor; [apply whole_located|constructor].
    - repeat constructor.
    - intros _. repeat constructor.
    - reflexivity. }
  rewrite fold_step.
  destruct (gaps_spec separator str Hgroups (m0 :: ms) 0 0 (le_n 0) Hplaced)
    as [H1 [H2 [H3 [H4 [H5 H6]]]]].
  specialize (H6 (Nat.le_0_l _)).
  set (final := {| value := Some (JsString.substring_from str
                                   (last_end 0 (m0 :: ms)));
                   index := last_end 0 (m0 :: ms) |}).
  assert (Hfinal : located str final)
    by (apply substring_located; [exact H6|apply le_n]).
  assert (Htail : StronglySorted lt
                    (indices (gaps str 0 (m0 :: ms) ++ [final])))
    by (unfold indices; rewrite map_app; now apply increasing_snoc).
  assert (Hpositive : ~ empty_at_start separator str -> m_index m0 = 0 ->
                      Forall (lt 0) (indices (gaps str 0 (m0 :: ms) ++ [final]))).
  { intros Hstart Hzero.
    pose proof (placed_no_groups separator str Hgroups _ _ _ Hplaced) as Hnil.
    destruct Hplaced as [_ [_ [Hrun Hrest]]].
    assert (Hlen : String.length (m_whole m0) <> 0).
    { intros Hempty. apply Hstart. exists (m_groups m0).
      rewrite Hzero, Hempty in Hrun. exact Hrun. }
    assert (Hresume : m_index m0 + String.length (m_whole m0) <= resume m0)
      by (unfold resume; lia).
    destruct (gaps_spec separator str Hgroups ms _ _ Hresume Hrest)
      as [_ [G2 [_ [_ [G5 _]]]]].
    unfold indices in *. rewrite map_app. simpl.
    rewrite Hnil. rewrite Hzero in G2, G5 |- *. simpl in G2, G5 |- *.
    apply Forall_app. split.
    + eapply Forall_impl; [|exact G2]. simpl. intros; lia.
    + constructor; [lia|constructor]. }
  set (pushed := gaps str 0 (m0 :: ms)) in *.
  split; [|split; [|split]].
  - destruct (m_index m0 =? 0)%nat; rewrite !Forall_app; repeat split;
      try assumption; repeat constructor; try assumption.
    apply empty_located.
  - destruct (m_index m0 =? 0)%nat; simpl.
    + constructor; [now apply increasing_weaken|].
      apply Forall_forall. intros; lia.
    + now apply increasing_weaken.
  - intros Hstart.
    destruct (Nat.eqb_spec (m_index m0) 0) as [Hzero|_]; simpl;
      [|exact Htail].
    constructor; [exact Htail|]. now apply Hpositive.
  - intros Hno. now specialize (Hnone Hno).
Qed.

Lemma splitWithIndex_pieces_witness :
  let str := " a  b" in
  Forall (located str) (splitWithIndex str Host.spaces)
  /\ StronglySorted le (indices (splitWithIndex str Host.spaces))
  /\ (~ empty_at_start Host.spaces str ->
      StronglySorted lt (indices (splitWithIndex str Host.spaces)))
  /\ (no_match Host.spaces str ->
      splitWithIndex str Host.spaces = [{| value := Some str; index := 0 |}]).
Proof.
  exact (splitWithIndex_pieces " a  b" Host.spaces eq_refl).
Defined.

(** C10 fails as stated: the empty regular expression has no capture
    group, and the indices of the split of ["a"] by it are 0, 0 and 1. *)
Lemma empty_separator_repeats_an_index :
  no_capture_groups Host.emptyPattern
  /\ splitWithIndex "a" Host.emptyPattern
     = [{| value := Some ""; index := 0 |};
        {| value := Some "a"; index := 0 |};
        {| value := Some ""; index := 1 |}]
  /\ ~ StronglySorted lt (indices (splitWithIndex "a" Host.emptyPattern)).
Proof.
  split; [reflexivity|]. split; [reflexivity|].
  intros Hsorted. vm_compute in Hsorted.
  inversion Hsorted as [|? ? _ Hhead]; subst.
  inversion Hhead as [|? ? Hlt _]; subst. lia.
Qed.

End SplitFacts.

(* ================================================================== *)
(** * The rule on the input of the tests *)
(* ================================================================== *)

Module EndToEnd.

Import Theme Rule Spec Host.

(** C1, on the code: for the attribute of the test the rule reports the
    first three bracketed colors and the composed fixes rewrite them; the
    lookup of [#F0F2F5] in the index, whose keys are spelled as the theme
    spells them, finds nothing, so the last class name is neither reported
    nor rewritten. *)
Theorem uppercase_payload_is_left_alone :
  let value := "flex bg-[#f0f2f5] text-[#123456] text-[#332233] bg-[#F0F2F5]" in
  let node := jsxAttribute "<div " "class" value in
  let text := attributeSource "<div " "class" value ">Arbitrary width!</div>" in
  themeIndex testConfig = inr testIndex
  /\ map_get testIndex (JStr "#F0F2F5") = None
  /\ exists reports,
       lint testIndex node None = inr reports
       /\ List.map arbitraryValue reports = ["#f0f2f5"; "#123456"; "#332233"]
       /\ List.map (fun r => fixed (fixInfo r)) reports
          = ["bg-gray-layout"; "text-flow"; "text-gray"]
       /\ fixAll text reports
          = attributeSource "<div " "class"
              "flex bg-gray-layout text-flow text-gray bg-[#F0F2F5]"
              ">Arbitrary width!</div>".
Proof.
  split; [reflexivity|]. split; [reflexivity|].
  eexists. split; [reflexivity|].
  repeat split; reflexivity.
Qed.

(** C2, on the code: [String.prototype.replace] reads the dollar
    patterns of the replacement.  With the color [cash$$] of value
    [#123456], the class name [text-[#123456]] is rewritten to
    [text-cash$], which is not the name with the brackets replaced by the
    path. *)
Theorem dollar_pattern_of_a_path_is_expanded :
  let config :=
    JObj 0 [("theme", JObj 1 [("colors", JObj 2 [("cash$$", JStr "#123456")])])] in
  let index := [(JStr "#123456", ["cash$$"])] in
  themeIndex config = inr index
  /\ exists r,
       lint index (jsxAttribute "<div " "class" "text-[#123456]") None = inr [r]
       /\ arbitraryValueMatch "text-[#123456]" = Some ("[#123456]", "#123456")
       /\ definedToken r = ["cash$$"]
       /\ canonical "cash$$" = "cash$$"
       /\ fixed (fixInfo r) = "text-cash$"
       /\ fixed (fixInfo r) <> ("text-" ++ canonical "cash$$" ++ "")%string.
Proof.
  split; [reflexivity|].
  eexists. split; [reflexivity|].
  repeat split; try reflexivity.
  simpl. discriminate.
Qed.

End EndToEnd.


(* ================================================================== *)
(** * More on [splitWithIndex] *)
(* ================================================================== *)

Module SplitMore.

Import Split SplitSpec Notions SplitFacts.

(** ** Cutting a string *)

Lemma take_drop (n : nat) (s : string) :
  (JsString.take n s ++ JsString.drop n s)%string = s.
Proof.
  revert s; induction n as [|n IH]; intros [|c s]; simpl; auto.
  now rewrite IH.
Qed.

Lemma drop_drop (a b : nat) (s : string) :
  JsString.drop b (JsString.drop a s) = JsString.drop (a + b) s.
Proof.
  revert s; induction a as [|a IH]; intros s; simpl; [reflexivity|].
  destruct s as [|c s]; [now destruct b|apply IH].
Qed.

Lemma drop_cut (s : string) (a b : nat) :
  a <= b -> b <= String.length s ->
  JsString.drop a s = (JsString.substring s a b ++ JsString.drop b s)%string.
Proof.
  intros Hab Hb. rewrite substring_within by assumption.
  replace b with (a + (b - a)) at 2 by lia.
  now rewrite <- drop_drop, take_drop.
Qed.

Lemma substring_from_drop (s : string) (e : nat) :
  e <= String.length s -> JsString.substring_from s e = JsString.drop e s.
Proof.
  intros He. unfold JsString.substring_from.
  rewrite substring_within by lia.
  rewrite <- (Host.length_drop e s). apply take_all.
Qed.

Lemma text_of_app (l1 l2 : list piece) :
  text_of (l1 ++ l2) = (text_of l1 ++ text_of l2)%string.
Proof.
  induction l1 as [|p l1 IH]; simpl; [reflexivity|].
  rewrite IH. now rewrite MatcherFacts.append_assoc.
Qed.

Lemma follows_weaken (lo lo' : nat) (l : list piece) :
  lo <= lo' -> follows lo' l -> follows lo l.
Proof. destruct l as [|p l]; simpl; [trivial|]. intros Hlo [Hp Hl]. split; [lia|exact Hl]. Qed.

Section Matches.

Variable re : regex.
Variable str : string.

(** The loop ends within the string. *)
Lemma last_end_bound (ms : list regexMatch) :
  forall lo lo',
    lo <= lo' -> placed re str lo' ms -> lo <= String.length str ->
    lo <= last_end lo ms <= String.length str.
Proof.
  induction ms as [|m ms IH]; intros lo lo' Hlo Hplaced Hin; simpl; [lia|].
  destruct Hplaced as [Hi [Hb [_ Hrest]]].
  assert (Hresume : m_index m + String.length (m_whole m) <= resume m)
    by (unfold resume; lia).
  specialize (IH _ _ Hresume Hrest Hb). lia.
Qed.

(** The pieces and the captures of the loop, followed by the rest of the
    string, are the string from [lastIndex] on. *)
Lemma gaps_text (Hwhole : captures_whole re) (ms : list regexMatch) :
  forall lo lo',
    lo <= lo' -> placed re str lo' ms ->
    (text_of (gaps str lo ms) ++ JsString.drop (last_end lo ms) str)%string
    = JsString.drop lo str.
Proof.
  induction ms as [|m ms IH]; intros lo lo' Hlo Hplaced; [reflexivity|].
  destruct Hplaced as [Hi [Hb [Hrun Hrest]]].
  assert (Hresume : m_index m + String.length (m_whole m) <= resume m)
    by (unfold resume; lia).
  specialize (IH _ _ Hresume Hrest).
  cbn [gaps last_end]. rewrite (Hwhole _ _ _ _ Hrun). cbn [List.map].
  rewrite !text_of_app, !MatcherFacts.append_assoc, IH.
  cbn [text_of value]. rewrite MatcherFacts.append_assoc. cbn [append].
  rewrite <- (drop_cut str (m_index m)) by lia.
  destruct (Nat.eqb_spec (m_index m) lo) as [->|Hne]; cbn [negb text_of].
  - reflexivity.
  - cbn [value]. rewrite MatcherFacts.append_assoc. cbn [append].
    symmetry. apply drop_cut; lia.
Qed.

Hypothesis Hgroups : no_capture_groups re.

(** Without capture group, every piece of the loop starts at or after
    the end of the piece before and ends within the string. *)
Lemma gaps_follow (ms : list regexMatch) :
  forall lo lo' tail,
    lo <= lo' -> placed re str lo' ms ->
    follows (last_end lo ms) tail ->
    follows lo (gaps str lo ms ++ tail).
Proof.
  induction ms as [|m ms IH]; intros lo lo' tail Hlo Hplaced Htail.
  - simpl in *. exact Htail.
  - pose proof (placed_no_groups re str Hgroups _ _ _ Hplaced) as Hnil.
    destruct Hplaced as [Hi [Hb [_ Hrest]]].
    assert (Hresume : m_index m + String.length (m_whole m) <= resume m)
      by (unfold resume; lia).
    specialize (IH _ _ tail Hresume Hrest Htail).
    cbn [gaps]. rewrite Hnil. cbn [List.map app].
    destruct (Nat.eqb_spec (m_index m) lo) as [Heq|Hne]; cbn [negb app].
    + eapply follows_weaken; [|exact IH]. lia.
    + cbn [follows index]. split; [lia|].
      unfold piece_end. cbn [index value].
      rewrite length_substring by lia.
      eapply follows_weaken; [|exact IH]. lia.
Qed.

(** When the separator is not sticky and never matches the empty string,
    it matches at no position of a piece of the loop, nor of the rest. *)
Lemma gaps_separator_free (Hnever : never_empty re str)
    (ms : list regexMatch) :
  forall lo,
    placed re str lo ms -> exhaustive re str lo ms ->
    lo <= String.length str ->
    Forall (separator_free re str)
      (gaps str lo ms
       ++ [{| value := Some (JsString.substring_from str (last_end lo ms));
              index := last_end lo ms |}]).
Proof.
  induction ms as [|m ms IH]; intros lo Hplaced Hall Hin.
  - constructor; [|constructor].
    intros j Hj. unfold piece_end in Hj. cbn [index value last_end] in Hj.
    rewrite substring_from_drop, Host.length_drop in Hj by exact Hin.
    apply Hall. simpl. lia.
  - pose proof (placed_no_groups re str Hgroups _ _ _ Hplaced) as Hnil.
    destruct Hplaced as [Hi [Hb [Hrun Hrest]]]. destruct Hall as [Hbefore Hafter].
    assert (Hresume : resume m = m_index m + String.length (m_whole m)).
    { unfold resume.
      destruct (Nat.eqb_spec (String.length (m_whole m)) 0) as [Hzero|_];
        [|lia].
      exfalso. apply (Hnever (m_index m) (m_groups m)). now rewrite <- Hzero. }
    rewrite Hresume in Hrest, Hafter.
    specialize (IH _ Hrest Hafter Hb).
    cbn [gaps last_end]. rewrite Hnil. cbn [List.map app].
    destruct (Nat.eqb_spec (m_index m) lo) as [Heq|Hne]; cbn [negb app];
      [exact IH|].
    constructor; [|exact IH].
    intros j Hj. unfold piece_end in Hj. cbn [index value] in Hj.
    rewrite length_substring in Hj by lia. apply Hbefore. lia.
Qed.

End Matches.

(** ** The matches are all the matches *)

Section Search.

Variable re : regex.
Variable str : string.
Hypothesis Hsearch : sticky re = false.

Lemma builtinExec_first (n : nat) :
  forall i m,
    builtinExec re str n i = Some m ->
    forall j, i <= j < m_index m -> run re str j = None.
Proof.
  induction n as [|n IH]; intros i m; simpl;
    destruct (run re str i) as [[len caps]|] eqn:Hrun;
    rewrite ?Hsearch.
  - intros [= <-] j Hj. simpl in Hj. lia.
  - discriminate.
  - intros [= <-] j Hj. simpl in Hj. lia.
  - intros Hm j Hj. destruct (Nat.eq_dec j i) as [->|Hne]; [exact Hrun|].
    apply (IH _ _ Hm). lia.
Qed.

Lemma builtinExec_none_inv (n : nat) :
  forall i,
    builtinExec re str n i = None ->
    forall j, i <= j <= i + n -> run re str j = None.
Proof.
  induction n as [|n IH]; intros i; simpl;
    destruct (run re str i) as [[len caps]|] eqn:Hrun;
    rewrite ?Hsearch; try discriminate.
  - intros _ j Hj. now replace j with i by lia.
  - intros Hnone j Hj. destruct (Nat.eq_dec j i) as [->|Hne]; [exact Hrun|].
    apply (IH _ Hnone). lia.
Qed.

Lemma matchAll_from_exhaustive (fuel : nat) :
  forall lastIndex,
    String.length str + 2 <= fuel + lastIndex ->
    exhaustive re str lastIndex (matchAll_from re str fuel lastIndex).
Proof.
  induction fuel as [|fuel IH]; intros lastIndex Hfuel; simpl.
  - intros j Hj. lia.
  - destruct (Nat.ltb_spec (String.length str) lastIndex) as [Hout|Hin].
    + intros j Hj. lia.
    + destruct (builtinExec re str (String.length str - lastIndex) lastIndex)
        as [m|] eqn:Hexec.
      * split; [exact (builtinExec_first _ _ _ Hexec)|].
        apply IH. pose proof (resume_grows _ _ _ _ _ Hexec). lia.
      * intros j Hj. apply (builtinExec_none_inv _ _ Hexec). lia.
Qed.

Lemma matchAll_exhaustive : exhaustive re str 0 (matchAll re str).
Proof. apply matchAll_from_exhaustive. lia. Qed.

End Search.

(** ** The result *)

Lemma append_empty (s : string) : (s ++ "")%string = s.
Proof. induction s as [|c s IH]; simpl; [reflexivity|now rewrite IH]. Qed.

Lemma split_unfold (str : string) (separator : regex) (m0 : regexMatch)
    (ms : list regexMatch) :
  matchAll separator str = m0 :: ms ->
  splitWithIndex str separator
  = ((if (m_index m0 =? 0)%nat then [{| value := Some ""; index := 0 |}]
      else [])
     ++ gaps str 0 (m0 :: ms))
    ++ [{| value := Some (JsString.substring_from str (last_end 0 (m0 :: ms)));
           index := last_end 0 (m0 :: ms) |}].
Proof.
  intros Hms. unfold splitWithIndex. rewrite Hms, fold_step. reflexivity.
Qed.

Lemma split_no_match (str : string) (separator : regex) :
  matchAll separator str = [] ->
  splitWithIndex str separator = [{| value := Some str; index := 0 |}].
Proof. intros Hms. unfold splitWithIndex. now rewrite Hms. Qed.

(** X1: the result of [splitWithIndex] is never empty: whatever the
    separator, its last element is the rest of the string, from an index
    within the string up to its end. *)
Theorem splitWithIndex_ends_with_the_rest (str : string) (separator : regex) :
  exists front rest_at,
    splitWithIndex str separator
    = front ++ [{| value := Some (JsString.drop rest_at str);
                   index := rest_at |}]
    /\ rest_at <= String.length str.
Proof.
  pose proof (matchAll_placed separator str) as Hplaced.
  destruct (matchAll separator str) as [|m0 ms] eqn:Hms.
  - exists [], 0. rewrite (split_no_match _ _ Hms). split; [reflexivity|lia].
  - destruct (last_end_bound separator str (m0 :: ms) 0 0 (le_n 0) Hplaced
                (Nat.le_0_l _)) as [_ Hend].
    eexists; exists (last_end 0 (m0 :: ms)).
    rewrite (split_unfold _ _ _ _ Hms), substring_from_drop by exact Hend.
    split; [reflexivity|exact Hend].
Qed.

Lemma follows_bound (l : list piece) (z : piece) :
  forall lo,
    follows lo (l ++ [z]) ->
    Forall (fun p => piece_end p <= piece_end z) (l ++ [z]).
Proof.
  induction l as [|p l IH]; intros lo; simpl.
  - intros _. constructor; [apply le_n|constructor].
  - intros [_ Hrest]. specialize (IH _ Hrest).
    constructor; [|exact IH].
    destruct l as [|q l]; simpl in Hrest, IH.
    + destruct Hrest as [Hz _].
      assert (index z <= piece_end z) by (unfold piece_end; lia). lia.
    + destruct Hrest as [Hq _]. inversion IH as [|? ? Hqz _]; subst.
      assert (index q <= piece_end q) by (unfold piece_end; lia). lia.
Qed.

(** X2: for a separator without capture group the elements of the result
    do not overlap: the first starts at 0 or later, each other one starts
    at or after the end of the one before it, and all end within the
    string. *)
Theorem pieces_follow_one_another (str : string) (separator : regex) :
  no_capture_groups separator ->
  follows 0 (splitWithIndex str separator)
  /\ Forall (fun p => piece_end p <= String.length str)
       (splitWithIndex str separator).
Proof.
  intros Hgroups.
  pose proof (matchAll_placed separator str) as Hplaced.
  assert (Hseq : follows 0 (splitWithIndex str separator)
                 /\ exists front z,
                      splitWithIndex str separator = front ++ [z]
                      /\ piece_end z <= String.length str).
  { destruct (matchAll separator str) as [|m0 ms] eqn:Hms.
    - rewrite (split_no_match _ _ Hms). split; [simpl; auto|].
      exists [], {| value := Some str; index := 0 |}.
      split; [reflexivity|]. unfold piece_end. simpl. lia.
    - destruct (last_end_bound separator str (m0 :: ms) 0 0 (le_n 0) Hplaced
                  (Nat.le_0_l _)) as [_ Hend].
      rewrite (split_unfold _ _ _ _ Hms). split.
      + rewrite <- app_assoc.
        assert (Hloop : follows 0
                  (gaps str 0 (m0 :: ms)
                   ++ [{| value := Some (JsString.substring_from str
                                          (last_end 0 (m0 :: ms)));
                          index := last_end 0 (m0 :: ms) |}])).
        { eapply (gaps_follow separator str Hgroups); [apply le_n|exact Hplaced|].
          simpl. auto. }
        destruct (m_index m0 =? 0)%nat; [|exact Hloop].
        simpl. split; [lia|exact Hloop].
      + eexists; eexists. split; [reflexivity|].
        unfold piece_end. cbn [index value].
        rewrite substring_from_drop, Host.length_drop by exact Hend. lia. }
  destruct Hseq as [Hfollows [front [z [Hsplit Hz]]]].
  split; [exact Hfollows|].
  rewrite Hsplit in Hfollows |- *.
  eapply Forall_impl; [|exact (follows_bound _ _ _ Hfollows)].
  simpl. intros; lia.
Qed.

Lemma pieces_follow_one_another_witness :
  follows 0 (splitWithIndex " a  b" Host.spaces)
  /\ Forall (fun p => piece_end p <= 5) (splitWithIndex " a  b" Host.spaces).
Proof.
  exact (pieces_follow_one_another " a  b" Host.spaces eq_refl).
Defined.

Lemma spaces_never_empty (str : string) : never_empty Host.spaces str.
Proof.
  intros i caps. simpl. unfold Host.spaces_run.
  destruct (Host.space_run (JsString.drop i str)); [discriminate|].
  destruct (i <=? String.length str)%nat; discriminate.
Qed.

(** X3: for a separator without capture group that is not sticky and
    never matches the empty string, the separator matches at no position
    of an element of the result: an element holds no start of a
    separator. *)
Theorem pieces_hold_no_separator (str : string) (separator : regex) :
  no_capture_groups separator ->
  sticky separator = false ->
  never_empty separator str ->
  Forall (separator_free separator str) (splitWithIndex str separator).
Proof.
  intros Hgroups Hsearch Hnever.
  pose proof (matchAll_placed separator str) as Hplaced.
  pose proof (matchAll_exhaustive separator str Hsearch) as Hall.
  destruct (matchAll separator str) as [|m0 ms] eqn:Hms.
  - rewrite (split_no_match _ _ Hms). constructor; [|constructor].
    intros j Hj. apply Hall. unfold piece_end in Hj. simpl in Hj. lia.
  - rewrite (split_unfold _ _ _ _ Hms), <- app_assoc.
    apply Forall_app. split.
    + destruct (m_index m0 =? 0)%nat; constructor; [|constructor].
      intros j Hj. unfold piece_end in Hj. simpl in Hj. lia.
    + apply (gaps_separator_free separator str Hgroups Hnever);
        [exact Hplaced | exact Hall | lia].
Qed.

Lemma pieces_hold_no_separator_witness :
  Forall (separator_free Host.spaces " a  b")
    (splitWithIndex " a  b" Host.spaces).
Proof.
  exact (pieces_hold_no_separator " a  b" Host.spaces eq_refl eq_refl
           (spaces_never_empty " a  b")).
Defined.

Lemma capturedSpaces_captures_whole : captures_whole Samples.capturedSpaces.
Proof.
  intros str i len caps. simpl. unfold Samples.captured_spaces_run.
  destruct (Host.spaces_run str i) as [[n c]|]; [|discriminate].
  now intros [= <- <-].
Qed.

(** X4: for a separator that is one capture group around the whole
    pattern, the values of the result, one after the other, spell the
    string: nothing of it is lost, moved or repeated. *)
Theorem captured_pieces_spell_the_string (str : string) (separator : regex) :
  captures_whole separator ->
  text_of (splitWithIndex str separator) = str.
Proof.
  intros Hwhole.
  pose proof (matchAll_placed separator str) as Hplaced.
  destruct (matchAll separator str) as [|m0 ms] eqn:Hms.
  - rewrite (split_no_match _ _ Hms). simpl. apply append_empty.
  - destruct (last_end_bound separator str (m0 :: ms) 0 0 (le_n 0) Hplaced
                (Nat.le_0_l _)) as [_ Hend].
    rewrite (split_unfold _ _ _ _ Hms), !text_of_app.
    cbn [text_of value]. rewrite append_empty.
    rewrite substring_from_drop by exact Hend.
    rewrite MatcherFacts.append_assoc.
    rewrite (gaps_text separator str Hwhole (m0 :: ms) 0 0 (le_n 0) Hplaced).
    now destruct (m_index m0 =? 0)%nat.
Qed.

Lemma captured_pieces_spell_the_string_witness :
  text_of (splitWithIndex " a  b " Samples.capturedSpaces) = " a  b ".
Proof.
  exact (captured_pieces_spell_the_string " a  b " Samples.capturedSpaces
           capturedSpaces_captures_whole).
Defined.

End SplitMore.


(* ================================================================== *)
(** * More on the traversal and the index *)
(* ================================================================== *)

Module ThemeMore.

Import Theme Rule Spec Host Notions ThemeFacts.

(** ** What the callback is called with *)

Lemma call_below_step (path : list string) (key : string)
    (c : jsval * list string) :
  call_below (path ++ [key]) c -> call_below path c.
Proof.
  intros [Hleaf [q [_ Hq]]]. split; [exact Hleaf|].
  exists (key :: q). split; [discriminate|].
  now rewrite Hq, <- app_assoc.
Qed.

Lemma call_below_here (path : list string) (key : string) (v : jsval) :
  is_plain_mapping v = false -> call_below path (v, path ++ [key]).
Proof.
  intros Hleaf. split; [exact Hleaf|]. exists [key]. split; [discriminate|reflexivity].
Qed.

Lemma calls_below (obj : jsval) :
  forall path, Forall (call_below path) (calls obj path).
Proof.
  induction obj as [| | b | n | s | id | id elems IH | id props IH]
    using jsval_nested_ind; intros path; simpl; try constructor.
  - generalize 0%nat.
    induction s as [|c s IHs]; intros i; constructor; [|apply IHs].
    now apply call_below_here.
  - generalize 0%nat.
    induction IH as [|v elems Hv _ IHl]; intros i; [constructor|].
    apply Forall_app. split; [|apply IHl].
    destruct (is_plain_mapping v) eqn:Hpm.
    + eapply Forall_impl; [|apply Hv]. intros c. apply call_below_step.
    + constructor; [now apply call_below_here|constructor].
  - induction IH as [|[k v] props Hv _ IHl]; [constructor|].
    apply Forall_app. split; [|apply IHl]. simpl in Hv.
    destruct (is_plain_mapping v) eqn:Hpm.
    + eapply Forall_impl; [|apply Hv]. intros c. apply call_below_step.
    + constructor; [now apply call_below_here|constructor].
Qed.

(** X5: [traverseObject] throws on [null] and [undefined] and on nothing
    else; on every other value it returns after calling the callback on a
    sequence of values none of which is a plain mapping, each under a path
    that extends the given path by at least one key. *)
Theorem traverseObject_callback_contract (St : Type)
    (callback : jsval -> list string -> St -> St) (obj : jsval)
    (path : list string) (st : St) :
  if nullish obj then traverseObject St callback obj path st = inl TypeError
  else exists cs,
         traverseObject St callback obj path st = inr (run_calls callback cs st)
         /\ Forall (call_below path) cs.
Proof.
  rewrite traverseObject_calls.
  destruct (nullish obj); [reflexivity|].
  exists (calls obj path). split; [reflexivity|apply calls_below].
Qed.

(** X16: the construction of the index throws exactly when the resolved
    configuration gives no colors to traverse: when reading [theme] or
    [colors] throws, or the colors are [null] or [undefined].  Colors of
    any other kind, an array, a string or a number among them, do not make
    it throw. *)
Theorem create_throws_exactly_without_colors (mergedConfig : jsval) (h : heap) :
  create_index mergedConfig h = inl TypeError
  <-> (forall theme colors,
         getProp mergedConfig "theme" = inr theme ->
         getProp theme "colors" = inr colors ->
         nullish colors = true).
Proof.
  split.
  - intros Hthrow theme colors Ht Hc.
    rewrite (create_index_spec _ _ _ _ Ht Hc) in Hthrow.
    now destruct (nullish colors).
  - intros Hall. unfold create_index.
    destruct (getProp mergedConfig "theme") as [[]|theme] eqn:Ht;
      [reflexivity|]. simpl.
    destruct (getProp theme "colors") as [[]|colors] eqn:Hc;
      [reflexivity|].
    fold (create_index mergedConfig h).
    pose proof (create_index_spec _ _ _ h Ht Hc) as Hspec.
    rewrite (Hall _ _ eq_refl Hc) in Hspec.
    unfold create_index in Hspec. rewrite Ht in Hspec. simpl in Hspec.
    rewrite Hc in Hspec. exact Hspec.
Qed.

(** ** What the index keeps *)

Lemma path_count_cons (k : jsval) (l : list string) (m : jsmap) :
  path_count ((k, l) :: m) = length l + path_count m.
Proof. unfold path_count. simpl. now rewrite length_app. Qed.

Lemma map_push_count (m : jsmap) (k : jsval) (p : string) :
  map_get m k <> None -> path_count (map_push m k p) = S (path_count m).
Proof.
  induction m as [|[k' l] m IH]; simpl; [congruence|].
  destruct (same_value_zero k' k); intros Hsome.
  - rewrite !path_count_cons, length_app. simpl. lia.
  - rewrite !path_count_cons, (IH Hsome). lia.
Qed.

Lemma map_set_count (m : jsmap) (k : jsval) (p : string) :
  map_get m k = None -> path_count (map_set m k [p]) = S (path_count m).
Proof.
  induction m as [|[k' l] m IH]; simpl; [reflexivity|].
  destruct (same_value_zero k' k); [discriminate|]. intros Hnone.
  rewrite !path_count_cons, (IH Hnone). lia.
Qed.

Lemma collector_count (v : jsval) (path : list string) (m : jsmap) :
  path_count (collector v path m) = S (path_count m).
Proof.
  unfold collector, map_has.
  destruct (map_get m v) eqn:Hget.
  - apply map_push_count. congruence.
  - now apply map_set_count.
Qed.

Lemma map_push_distinct (m : jsmap) (k : jsval) (p : string) :
  distinct_keys m -> distinct_keys (map_push m k p).
Proof.
  induction m as [|[k' l] m IH]; simpl; [trivial|].
  intros [Hfresh Hrest].
  destruct (same_value_zero k' k); simpl; [now split|].
  split; [|now apply IH].
  rewrite map_get_push, Hfresh. now destruct (same_value_zero k k').
Qed.

Lemma map_set_distinct (m : jsmap) (k : jsval) (l : list string) :
  map_get m k = None -> distinct_keys m -> distinct_keys (map_set m k l).
Proof.
  induction m as [|[k' l'] m IH]; simpl; [auto|].
  destruct (same_value_zero k' k) eqn:Hk; [discriminate|].
  intros Hnone [Hfresh Hrest]. simpl. split; [|now apply IH].
  rewrite (map_get_set _ _ _ _ Hnone), Hfresh.
  now rewrite same_value_zero_sym, Hk.
Qed.

Lemma collector_distinct (v : jsval) (path : list string) (m : jsmap) :
  distinct_keys m -> distinct_keys (collector v path m).
Proof.
  unfold collector, map_has. intros Hm.
  destruct (map_get m v) eqn:Hget.
  - now apply map_push_distinct.
  - now apply map_set_distinct.
Qed.

Lemma map_push_full (m : jsmap) (k : jsval) (p : string) :
  Forall (fun e => snd e <> []) m ->
  Forall (fun e => snd e <> []) (map_push m k p).
Proof.
  induction 1 as [|[k' l] m Hl Hm IH]; simpl; [constructor|].
  destruct (same_value_zero k' k); constructor; try assumption.
  simpl. destruct l; discriminate.
Qed.

Lemma map_set_full (m : jsmap) (k : jsval) (p : string) :
  Forall (fun e => snd e <> []) m ->
  Forall (fun e => snd e <> []) (map_set m k [p]).
Proof.
  induction 1 as [|[k' l] m Hl Hm IH]; simpl.
  - constructor; [discriminate|constructor].
  - destruct (same_value_zero k' k); constructor; try assumption.
    discriminate.
Qed.

Lemma buildIndex_invariants (cs : list (jsval * list string)) :
  distinct_keys (buildIndex cs)
  /\ Forall (fun e => snd e <> []) (buildIndex cs)
  /\ path_count (buildIndex cs) = length cs.
Proof.
  induction cs as [|c cs [Hd [Hf Hc]]] using rev_ind.
  - repeat split. constructor.
  - rewrite buildIndex_snoc, length_app. simpl. split; [|split].
    + now apply collector_distinct.
    + unfold collector. destruct (map_has (buildIndex cs) (fst c));
        [now apply map_push_full | now apply map_set_full].
    + rewrite collector_count, Hc. lia.
Qed.

(** X6: the map [create] builds is appended to the heap, whose maps stay
    as they were; no two of its keys are the same value, every entry holds
    a path at least, and it holds as many paths as the traversal met
    leaves: no path is lost and none comes twice. *)
Theorem created_index_keeps_every_path
    (mergedConfig theme colors : jsval) (h : heap) (a : addr) (h' : heap) :
  getProp mergedConfig "theme" = inr theme ->
  getProp theme "colors" = inr colors ->
  create_index mergedConfig h = inr (a, h') ->
  exists m,
    h' = h ++ [m] /\ a = length h
    /\ distinct_keys m
    /\ Forall (fun e => snd e <> []) m
    /\ path_count m = length (calls colors []).
Proof.
  intros Htheme Hcolors Hrun.
  rewrite (create_index_spec _ _ _ _ Htheme Hcolors) in Hrun.
  destruct (nullish colors); [discriminate|].
  injection Hrun as <- <-.
  exists (buildIndex (calls colors [])).
  split; [reflexivity|]. split; [reflexivity|].
  apply buildIndex_invariants.
Qed.

Lemma created_index_keeps_every_path_witness :
  exists m,
    [testIndex] = [] ++ [m] /\ 0 = length (@nil jsmap)
    /\ distinct_keys m
    /\ Forall (fun e => snd e <> []) m
    /\ path_count m = length (calls testColors []).
Proof.
  exact (created_index_keeps_every_path testConfig
           (JObj 1 [("colors", testColors)]) testColors [] 0 [testIndex]
           eq_refl eq_refl eq_refl).
Defined.

(** X7: once [create] has built the index, [parseForArbitraryValues]
    returns on every node, whatever the tokenizer and the parser give: the
    [definedToken[0]] it reads is never [undefined]. *)
Theorem rule_returns_on_created_index
    (mergedConfig : jsval) (h : heap) (a : addr) (h' : heap) (m : jsmap) :
  create_index mergedConfig h = inr (a, h') ->
  load h' a = Some m ->
  forall extract parse node arg,
  exists rs, parseForArbitraryValues extract parse m node arg = inr rs.
Proof.
  intros Hrun Hload.
  destruct (create_index_inv _ _ _ _ Hrun) as [theme [colors [Ht [Hc Hn]]]].
  rewrite (create_index_spec _ _ _ _ Ht Hc), Hn in Hrun.
  injection Hrun as <- <-.
  rewrite load_last in Hload. injection Hload as <-.
  intros. apply IndexFacts.built_index_never_throws.
Qed.

Lemma rule_returns_on_created_index_witness :
  exists rs,
    parseForArbitraryValues extractClassnamesFromValue parseClassname testIndex
      (jsxAttribute "" "class" "flex bg-[#f0f2f5]") None = inr rs.
Proof.
  exact (rule_returns_on_created_index testConfig [] 0 [testIndex] testIndex
           eq_refl eq_refl extractClassnamesFromValue parseClassname
           (jsxAttribute "" "class" "flex bg-[#f0f2f5]") None).
Defined.

End ThemeMore.


(* ================================================================== *)
(** * More on the matcher and the walker *)
(* ================================================================== *)

Module MatcherMore.

Import Theme Rule Spec Host Notions WalkerFacts MatcherFacts.

(** ** The bracket expression *)

Lemma last_close_greedy (s : string) :
  forall k, last_close s = Some k -> last_close (JsString.drop (S k) s) = None.
Proof.
  induction s as [|c s IH]; simpl; intros k; [discriminate|].
  destruct (line_terminator c); [discriminate|].
  destruct (last_close s) as [k'|] eqn:Hs.
  - intros [= <-]. apply (IH k' eq_refl).
  - destruct (Ascii.eqb c "]"); [|discriminate].
    intros [= <-]. simpl. exact Hs.
Qed.

Lemma arbitraryValueMatch_finds (before key after : string) :
  one_line key = true ->
  arbitraryValueMatch (before ++ String "[" (key ++ String "]" after)) <> None.
Proof.
  intros Hone. induction before as [|c before IH]; simpl.
  - pose proof (last_close_found key after Hone) as Hfound.
    destruct (last_close (key ++ String "]" after)); [discriminate|contradiction].
  - destruct (Ascii.eqb c "["); [|exact IH].
    destruct (last_close (before ++ String "[" (key ++ String "]" after)));
      [discriminate|exact IH].
Qed.

Lemma arbitraryValueMatch_greedy (name matched key : string) :
  arbitraryValueMatch name = Some (matched, key) ->
  exists before after,
    name = (before ++ String "[" (key ++ String "]" after))%string
    /\ last_close after = None.
Proof.
  induction name as [|c name IH]; simpl; [discriminate|].
  assert (Hnext : arbitraryValueMatch name = Some (matched, key) ->
                  exists before after,
                    String c name
                    = (before ++ String "[" (key ++ String "]" after))%string
                    /\ last_close after = None).
  { intros Hrest. destruct (IH Hrest) as [before [after [-> Hlast]]].
    now exists (String c before), after. }
  destruct (Ascii.eqb c "[") eqn:Hc; [|exact Hnext].
  destruct (last_close name) as [k|] eqn:Hk; [|exact Hnext].
  apply Ascii.eqb_eq in Hc. subst c. intros [= <- <-].
  exists "", (JsString.drop (S k) name). split.
  - simpl. f_equal. exact (proj1 (last_close_spec _ _ Hk)).
  - exact (last_close_greedy _ _ Hk).
Qed.

(** X9: the expression of the rule matches a name exactly when the name
    holds an opening bracket followed, on the same line, by a closing one;
    the match is the bracketed text, the capture is the text between the
    brackets, and this text runs up to the last closing bracket of the
    line. *)
Theorem bracket_match_characterised (name : string) :
  ((exists matched key, arbitraryValueMatch name = Some (matched, key))
   <-> exists before key after,
         name = (before ++ String "[" (key ++ String "]" after))%string
         /\ one_line key = true)
  /\ forall matched key,
       arbitraryValueMatch name = Some (matched, key) ->
       matched = String "[" (key ++ "]")
       /\ one_line key = true
       /\ exists before after,
            name = (before ++ String "[" (key ++ String "]" after))%string
            /\ last_close after = None.
Proof.
  split.
  - split.
    + intros [matched [key Hm]].
      destruct (arbitraryValueMatch_spec _ _ _ Hm) as [_ [Hone _]].
      destruct (arbitraryValueMatch_greedy _ _ _ Hm) as [before [after [Hn _]]].
      now exists before, key, after.
    + intros [before [key [after [-> Hone]]]].
      pose proof (arbitraryValueMatch_finds before key after Hone) as Hfound.
      destruct (arbitraryValueMatch _) as [[matched k]|];
        [now exists matched, k | contradiction].
  - intros matched key Hm.
    destruct (arbitraryValueMatch_spec _ _ _ Hm) as [Hmatched [Hone _]].
    split; [exact Hmatched|]. split; [exact Hone|].
    exact (arbitraryValueMatch_greedy _ _ _ Hm).
Qed.

(** ** The replacement text *)

Lemma length_append_sum (a b : string) :
  String.length (a ++ b) = String.length a + String.length b.
Proof. induction a as [|x a IH]; simpl; [reflexivity|now rewrite IH]. Qed.

Lemma endsWith_iff (s p : string) :
  JsString.endsWith s p = true <-> exists q, s = (q ++ p)%string.
Proof.
  unfold JsString.endsWith. split.
  - intros H. apply andb_prop in H. destruct H as [_ Heq].
    apply String.eqb_eq in Heq.
    exists (JsString.take (String.length s - String.length p) s).
    set (n := String.length s - String.length p) in *. clearbody n.
    rewrite <- Heq. symmetry. apply SplitMore.take_drop.
  - intros [q ->]. rewrite length_append_sum.
    replace (String.length q + String.length p - String.length p)
      with (String.length q) by lia.
    rewrite drop_append, String.eqb_refl.
    destruct (Nat.leb_spec (String.length p) (String.length q + String.length p));
      [reflexivity|lia].
Qed.

(** X11: the path put in the fix is the first path without a final
    [-DEFAULT], and the first path itself when it does not end so; nothing
    else of the path is changed. *)
Theorem canonical_drops_a_final_DEFAULT (first : string) :
  (exists p, first = (p ++ "-DEFAULT")%string /\ canonical first = p)
  \/ ((forall p, first <> (p ++ "-DEFAULT")%string) /\ canonical first = first).
Proof.
  unfold canonical.
  destruct (JsString.endsWith first "-DEFAULT") eqn:Hends.
  - left. apply endsWith_iff in Hends. destruct Hends as [p ->].
    exists p. split; [reflexivity|].
    unfold JsString.slice_front. rewrite length_append_sum.
    replace (String.length p + String.length "-DEFAULT" - 8)
      with (String.length p) by (simpl; lia).
    apply take_append.
  - right. split; [|reflexivity].
    intros p Hp. assert (Htrue : JsString.endsWith first "-DEFAULT" = true)
      by (apply endsWith_iff; now exists p).
    congruence.
Qed.

Lemma last_close_prefix (a b : string) :
  last_close (a ++ b) = None -> last_close a = None.
Proof.
  induction a as [|c a IH]; simpl; [reflexivity|].
  destruct (line_terminator c); [reflexivity|].
  destruct (last_close (a ++ b)); [discriminate|].
  rewrite (IH eq_refl). now destruct (Ascii.eqb c "]").
Qed.

(** The match is the first bracketed text of the name: no bracketed text
    stands before it, and [indexOf] finds it where it stands. *)
Lemma arbitraryValueMatch_first (name matched key : string) :
  arbitraryValueMatch name = Some (matched, key) ->
  exists before after,
    name = (before ++ matched ++ after)%string
    /\ arbitraryValueMatch before = None
    /\ JsString.indexOf name matched = Some (String.length before).
Proof.
  induction name as [|c name IH]; simpl; [discriminate|].
  destruct (Ascii.eqb c "[") eqn:Hc.
  - apply Ascii.eqb_eq in Hc. subst c.
    destruct (last_close name) as [k|] eqn:Hk.
    + intros [= <- <-]. destruct (last_close_spec _ _ Hk) as [Hname _].
      assert (Hwhole : name
                = ((JsString.take k name ++ "]")
                   ++ JsString.drop (S k) name)%string)
        by (rewrite append_assoc; exact Hname).
      exists "", (JsString.drop (S k) name).
      set (after := JsString.drop (S k) name) in *.
      split; [cbn [append]; f_equal; exact Hwhole|].
      split; [reflexivity|].
      cbn [JsString.indexOf JsString.startsWith String.length].
      now rewrite Ascii.eqb_refl, (startsWith_prefix _ _ _ Hwhole).
    + intros Hrest. destruct (IH Hrest) as [before [after [Hn [Hnone Hi]]]].
      destruct (arbitraryValueMatch_spec _ _ _ Hrest) as [Hm [Hone _]].
      exists (String "[" before), after.
      split; [simpl; now rewrite <- Hn|]. split.
      * simpl. rewrite Hn in Hk. apply last_close_prefix in Hk.
        now rewrite Hk.
      * subst matched. cbn [JsString.indexOf JsString.startsWith].
        rewrite Hi, Ascii.eqb_refl. cbn [andb].
        destruct (JsString.startsWith name (key ++ "]")) eqn:Hstart;
          [|reflexivity].
        destruct (startsWith_split _ _ Hstart) as [t Ht].
        rewrite append_assoc in Ht. simpl in Ht.
        exfalso. apply (last_close_found key t Hone). now rewrite <- Ht.
  - intros Hrest. destruct (IH Hrest) as [before [after [Hn [Hnone Hi]]]].
    destruct (arbitraryValueMatch_spec _ _ _ Hrest) as [Hm _].
    exists (String c before), after.
    split; [simpl; now rewrite <- Hn|]. split.
    + simpl. now rewrite Hc.
    + subst matched. cbn [JsString.indexOf JsString.startsWith].
      rewrite Hi, Ascii.eqb_sym, Hc. reflexivity.
Qed.

(** X10: when the first path of the entry, its final [-DEFAULT] dropped,
    holds no dollar sign, the fix text is the parsed name with its first
    bracketed text, brackets included, replaced by that path, what stands
    before and after being kept. *)
Theorem fix_puts_the_path_in_the_brackets
    (parse : string -> nat -> string) (map : jsmap) (start : Z) (idx : nat)
    (cls : string) (offset : Z) (r : report) (first : string)
    (rest : list string) :
  checkClass parse map start idx cls offset = inr [r] ->
  definedToken r = first :: rest ->
  JsString.dollar_free (canonical first) = true ->
  exists before after,
    parse cls idx
    = (before ++ String "[" (arbitraryValue r ++ "]") ++ after)%string
    /\ arbitraryValueMatch before = None
    /\ fixed (fixInfo r) = (before ++ canonical first ++ after)%string.
Proof.
  unfold checkClass.
  destruct (arbitraryValueMatch (parse cls idx)) as [[matched key]|] eqn:Hm;
    [|discriminate].
  destruct (map_get map (JStr key)) as [[|first' rest']|]; try discriminate.
  intros [= <-]. simpl. intros [= <- <-] Hplain.
  destruct (arbitraryValueMatch_spec _ _ _ Hm) as [Hmatched _].
  destruct (arbitraryValueMatch_first _ _ _ Hm) as [before [after [Hn [Hnone Hi]]]].
  exists before, after. subst matched.
  split; [exact Hn|]. split; [exact Hnone|].
  rewrite Hn in Hi |- *. now apply replace_match_plain.
Qed.

Lemma fix_puts_the_path_in_the_brackets_witness :
  exists before after,
    "text-[#332233]"
    = (before ++ String "[" ("#332233" ++ "]") ++ after)%string
    /\ arbitraryValueMatch before = None
    /\ "text-gray" = (before ++ canonical "gray-DEFAULT" ++ after)%string.
Proof.
  exact (fix_puts_the_path_in_the_brackets parseClassname testIndex 12 3
           "text-[#332233]" 33
           {| arbitraryValue := "#332233";
              definedToken := ["gray-DEFAULT"];
              fixInfo := {| fix_start := 45; fix_end := 59;
                            fixed := "text-gray" |} |}
           "gray-DEFAULT" [] eq_refl eq_refl eq_refl).
Defined.

(** ** The reports of a value *)

Lemma checkClass_sound (parse : string -> nat -> string) (map : jsmap)
    (start : Z) (idx : nat) (cls : string) (offset : Z) (rs : list report) :
  checkClass parse map start idx cls offset = inr rs ->
  Forall (names_theme_value map) rs.
Proof.
  unfold checkClass.
  destruct (arbitraryValueMatch (parse cls idx)) as [[matched key]|];
    [|intros [= <-]; constructor].
  destruct (map_get map (JStr key)) as [[|first rest]|] eqn:Hget;
    [discriminate | | intros [= <-]; constructor].
  intros [= <-]. constructor; [|constructor].
  split; [exact Hget|discriminate].
Qed.

Lemma checkClasses_sound (parse : string -> nat -> string) (map : jsmap)
    (start : Z) (l : list (string * Z)) :
  forall idx rs,
    checkClasses parse map start idx l = inr rs ->
    Forall (names_theme_value map) rs.
Proof.
  induction l as [|[cls offset] l IH]; simpl; intros idx rs.
  - intros [= <-]. constructor.
  - destruct (checkClass parse map start idx cls offset) as [e|one] eqn:Hone;
      simpl; [discriminate|].
    destruct (checkClasses parse map start (S idx) l) as [e|more] eqn:Hmore;
      simpl; [discriminate|].
    intros [= <-]. apply Forall_app. split.
    + exact (checkClass_sound _ _ _ _ _ _ _ Hone).
    + exact (IH _ _ Hmore).
Qed.

Lemma fixes_follow_weaken (lo lo' : Z) (rs : list report) :
  (lo <= lo')%Z -> fixes_follow lo' rs -> fixes_follow lo rs.
Proof.
  destruct rs as [|r rs]; simpl; [trivial|].
  intros Hlo [Hr Hrest]. split; [lia|exact Hrest].
Qed.

Lemma checkClasses_follow (parse : string -> nat -> string) (map : jsmap)
    (start : Z) (l : list (string * Z)) :
  forall idx lo rs,
    spans_follow parse lo idx l ->
    checkClasses parse map start idx l = inr rs ->
    fixes_follow (start + lo) rs.
Proof.
  induction l as [|[cls offset] l IH]; simpl; intros idx lo rs.
  - intros _ [= <-]. exact I.
  - intros [Hlo Hspans].
    destruct (checkClass parse map start idx cls offset) as [e|one] eqn:Hone;
      simpl; [discriminate|].
    destruct (checkClasses parse map start (S idx) l) as [e|more] eqn:Hmore;
      simpl; [discriminate|].
    intros [= <-]. specialize (IH _ _ _ Hspans Hmore).
    destruct (checkClass_inv _ _ _ _ _ _ _ Hone)
      as [->|[r [m [-> [_ [_ [Hstart Hend]]]]]]]; simpl in *.
    + eapply fixes_follow_weaken; [|exact IH]. lia.
    + rewrite Hstart, Hend. repeat split; try lia.
      now rewrite <- Z.add_assoc.
Qed.

(** X12: when the class names the tokenizer gives for a value follow one
    another, each parsed name ending before the next class name starts, the
    fixes reported for the value come in the order of the source and do not
    overlap. *)
Theorem fixes_come_in_order
    (extract : jsval -> list (string * Z)) (parse : string -> nat -> string)
    (map : jsmap) (value : jsval) (start lo : Z) (rs : list report) :
  spans_follow parse lo 0 (extract value) ->
  reportValue extract parse map value start = inr rs ->
  fixes_follow (start + lo) rs.
Proof.
  intros Hspans Hrun. exact (checkClasses_follow _ _ _ _ _ _ _ Hspans Hrun).
Qed.

Lemma fixes_come_in_order_witness :
  fixes_follow (12 + 0)
    [{| arbitraryValue := "#f0f2f5";
        definedToken := ["gray-layout"; "gray-flow"];
        fixInfo := {| fix_start := 17; fix_end := 29;
                      fixed := "bg-gray-layout" |} |};
     {| arbitraryValue := "#123456";
        definedToken := ["flow"];
        fixInfo := {| fix_start := 30; fix_end := 44;
                      fixed := "text-flow" |} |}].
Proof.
  apply (fixes_come_in_order extractClassnamesFromValue parseClassname
           testIndex (JStr "flex bg-[#f0f2f5] text-[#123456]") 12 0).
  - simpl. repeat split; lia.
  - reflexivity.
Defined.

(** ** The reports of the walker *)

Section Lift.

Variable extract : jsval -> list (string * Z).
Variable parse : string -> nat -> string.
Variable map : jsmap.
Variable P : report -> Prop.

Hypothesis Hvalue :
  forall value start rs,
    reportValue extract parse map value start = inr rs -> Forall P rs.

Lemma forEach_all {A : Type} (f : A -> result (list report)) (l : list A) :
  Forall (fun x => forall rs, f x = inr rs -> Forall P rs) l ->
  forall rs, forEach f l = inr rs -> Forall P rs.
Proof.
  induction 1 as [|x l Hx _ IH]; simpl; intros rs.
  - intros [= <-]. constructor.
  - destruct (f x) as [e|one]; simpl; [discriminate|].
    destruct (forEach f l) as [e|more]; simpl; [discriminate|].
    intros [= <-]. apply Forall_app. split; [now apply Hx|now apply IH].
Qed.

Lemma parseArg_all (node : rootNode) (arg : expr) :
  forall rs, parseArg extract parse map node arg = inr rs -> Forall P rs.
Proof.
  assert (Hroot : forall rs,
             parseRoot extract parse map node = inr rs -> Forall P rs)
    by (intros rs; apply Hvalue).
  induction arg as [name | es qs IHes IHqs | t c a IHc IHa | l r IHr
                   | els IH | props IH | k v IHk | v r | raw r | ty kids]
    using expr_nested_ind; simpl; intros rs.
  - intros [= <-]. constructor.
  - destruct (forEach _ es) as [e|r1] eqn:H1; simpl; [discriminate|].
    destruct (forEach _ qs) as [e|r2] eqn:H2; simpl; [discriminate|].
    intros [= <-]. apply Forall_app. split.
    + exact (forEach_all _ es IHes _ H1).
    + exact (forEach_all _ qs IHqs _ H2).
  - destruct (parseArg extract parse map node c) as [e|r1]; simpl;
      [discriminate|].
    destruct (parseArg extract parse map node a) as [e|r2]; simpl;
      [discriminate|].
    intros [= <-]. apply Forall_app. split; [now apply IHc|now apply IHa].
  - apply IHr.
  - apply forEach_all. eapply Forall_impl; [|exact IH].
    intros [e|] He; [exact He | exact Hroot].
  - apply forEach_all. eapply Forall_impl; [|exact IH].
    intros prop Hprop. destruct prop; try exact Hroot.
    destruct Hprop as [Hk Hv]. now destruct (_ || _).
  - apply IHk.
  - apply Hvalue.
  - destruct (String.eqb raw ""); [intros [= <-]; constructor | apply Hvalue].
  - apply Hvalue.
Qed.

Lemma parseForArbitraryValues_all (node : rootNode) (arg : option expr) :
  forall rs,
    parseForArbitraryValues extract parse map node arg = inr rs -> Forall P rs.
Proof.
  destruct arg as [arg|]; simpl; [apply parseArg_all | intros rs; apply Hvalue].
Qed.

End Lift.

Lemma parseForArbitraryValues_sound
    (extract : jsval -> list (string * Z)) (parse : string -> nat -> string)
    (map : jsmap) (node : rootNode) (arg : option expr) (rs : list report) :
  parseForArbitraryValues extract parse map node arg = inr rs ->
  Forall (names_theme_value map) rs.
Proof.
  apply parseForArbitraryValues_all.
  intros value start rs'. apply checkClasses_sound.
Qed.

(** X8: whatever the node, the tokenizer and the parser, a report of
    [parseForArbitraryValues] names a string that is a key of the map and
    carries the entry of that key, which is not empty: nothing is reported
    that the theme does not hold. *)
Theorem reports_name_theme_values
    (extract : jsval -> list (string * Z)) (parse : string -> nat -> string)
    (map : jsmap) (node : rootNode) (arg : option expr) (rs : list report) :
  parseForArbitraryValues extract parse map node arg = inr rs ->
  Forall (names_theme_value map) rs.
Proof. apply parseForArbitraryValues_sound. Qed.

Lemma reports_name_theme_values_witness :
  Forall (names_theme_value pxIndex)
    [reportOf "a-[1px]" "1px" "one" "a-one" 13;
     reportOf "b-[2px]" "2px" "two" "b-two" 25].
Proof.
  exact (reports_name_theme_values extractClassnamesFromValue parseClassname
           pxIndex callRoot
           (Some (ConditionalExpression (quoted "c-[3px]" 0)
                    (quoted "a-[1px]" 12) (quoted "b-[2px]" 24)))
           _ eq_refl).
Defined.

End MatcherMore.


(* ================================================================== *)
(** * The entry points *)
(* ================================================================== *)

Module VisitorFacts.

Import Theme Rule Spec Host Notions Visitors Samples ThemeFacts MatcherMore.

Lemma created_is_built (mergedConfig : jsval) (h : heap) (a : addr)
    (h' : heap) (m : jsmap) :
  create_index mergedConfig h = inr (a, h') ->
  load h' a = Some m ->
  exists cs, m = buildIndex cs.
Proof.
  intros Hrun Hload.
  destruct (create_index_inv _ _ _ _ Hrun) as [theme [colors [Ht [Hc Hn]]]].
  rewrite (create_index_spec _ _ _ _ Ht Hc), Hn in Hrun.
  injection Hrun as <- <-.
  rewrite load_last in Hload. injection Hload as <-.
  now exists (calls colors []).
Qed.

(** X14: whatever entry point the host calls, on whatever node and with
    whatever options, every report names a string that is a key of the map
    and carries the entry of that key. *)
Theorem visitors_report_theme_values
    (extract : jsval -> list (string * Z)) (parse : string -> nat -> string)
    (map : jsmap) (opts : options) (v : visited) (rs : list report) :
  visit extract parse map opts v = inr rs ->
  Forall (names_theme_value map) rs.
Proof.
  assert (Hparse : forall node arg rs',
             parseForArbitraryValues extract parse map node arg = inr rs' ->
             Forall (names_theme_value map) rs')
    by (intros; eapply parseForArbitraryValues_sound; eauto).
  assert (Hnil : @inr exn _ [] = inr rs -> Forall (names_theme_value map) rs)
    by (intros [= <-]; constructor).
  assert (Heach : forall (A : Type) (f : A -> option expr) node (l : list A),
             forEach (fun x => parseForArbitraryValues extract parse map node
                                 (f x)) l = inr rs ->
             Forall (names_theme_value map) rs).
  { intros A f node l.
    apply (forEach_all (names_theme_value map)).
    apply Forall_forall. intros x _ rs'. apply Hparse. }
  destruct v as [node|node|node|node|node]; simpl.
  1, 2: unfold attributeVisitor;
        destruct (negb (isClassAttribute node) || skipClassAttribute opts);
        [exact Hnil|];
        destruct (isLiteralAttributeValue node); [apply Hparse|];
        destruct (value_type node) as [t|]; [|exact Hnil];
        destruct (String.eqb t "JSXExpressionContainer");
        [apply Hparse|exact Hnil].
  - unfold callExpressionVisitor.
    destruct (negb (includes (callees opts) (calleeStr node))); [exact Hnil|].
    apply (Heach _ (@Some expr)).
  - unfold taggedTemplateVisitor.
    destruct (negb (includes (tags opts) (tag_name node))); [exact Hnil|].
    apply Hparse.
  - unfold vAttributeVisitor.
    destruct (negb (isValidVueAttribute node)); [exact Hnil|].
    destruct (isVLiteralValue node); [apply Hparse|].
    destruct (isArrayExpression node); [apply (Heach _ (fun x => x))|].
    destruct (isObjectExpression node); [apply (Heach _ (@Some expr))|].
    exact Hnil.
Qed.

Lemma visitors_report_theme_values_witness :
  Forall (names_theme_value pxIndex)
    [reportOf "a-[1px]" "1px" "one" "a-one" 9;
     reportOf "b-[2px]" "2px" "two" "b-two" 21].
Proof.
  exact (visitors_report_theme_values extractClassnamesFromValue parseClassname
           pxIndex someOptions (CallExpression someCall) _ eq_refl).
Defined.

(** X15: once [create] has built the index, no entry point throws,
    whatever the node, the options, the tokenizer and the parser. *)
Theorem visitors_return_on_created_index
    (mergedConfig : jsval) (h : heap) (a : addr) (h' : heap) (m : jsmap) :
  create_index mergedConfig h = inr (a, h') ->
  load h' a = Some m ->
  forall extract parse opts v,
  exists rs, visit extract parse m opts v = inr rs.
Proof.
  intros Hrun Hload extract parse opts v.
  destruct (created_is_built _ _ _ _ _ Hrun Hload) as [cs ->].
  assert (Hparse : forall node arg,
             exists rs, parseForArbitraryValues extract parse (buildIndex cs)
                          node arg = inr rs)
    by (intros; apply IndexFacts.built_index_never_throws).
  assert (Hnil : exists rs, @inr exn (list report) [] = inr rs)
    by (now exists []).
  assert (Heach : forall (A : Type) (f : A -> option expr) node (l : list A),
             exists rs,
               forEach (fun x => parseForArbitraryValues extract parse
                                   (buildIndex cs) node (f x)) l = inr rs).
  { intros A f node l. apply IndexFacts.forEach_returns.
    apply Forall_forall. intros x _. apply Hparse. }
  destruct v as [node|node|node|node|node]; simpl.
  1, 2: unfold attributeVisitor;
        destruct (negb (isClassAttribute node) || skipClassAttribute opts);
        [exact Hnil|];
        destruct (isLiteralAttributeValue node); [apply Hparse|];
        destruct (value_type node) as [t|]; [|exact Hnil];
        destruct (String.eqb t "JSXExpressionContainer");
        [apply Hparse|exact Hnil].
  - unfold callExpressionVisitor.
    destruct (negb (includes (callees opts) (calleeStr node))); [exact Hnil|].
    apply (Heach _ (@Some expr)).
  - unfold taggedTemplateVisitor.
    destruct (negb (includes (tags opts) (tag_name node))); [exact Hnil|].
    apply Hparse.
  - unfold vAttributeVisitor.
    destruct (negb (isValidVueAttribute node)); [exact Hnil|].
    destruct (isVLiteralValue node); [apply Hparse|].
    destruct (isArrayExpression node); [apply (Heach _ (fun x => x))|].
    destruct (isObjectExpression node); [apply (Heach _ (@Some expr))|].
    exact Hnil.
Qed.

Lemma visitors_return_on_created_index_witness :
  exists rs,
    visit extractClassnamesFromValue parseClassname testIndex someOptions
      (CallExpression someCall) = inr rs.
Proof.
  exact (visitors_return_on_created_index testConfig [] 0 [testIndex] testIndex
           eq_refl eq_refl extractClassnamesFromValue parseClassname
           someOptions (CallExpression someCall)).
Defined.

End VisitorFacts.
